(** * Shallow embedding of the Ekubo EVM math kernel (tick, exp2, TWAMM
    price evolution) and of the oracle pool quote wrapper. *)

From Stdlib Require Import ZArith Lia List Bool.
Import ListNotations.
Open Scope Z_scope.

(** ** Rust execution outcome: a call either returns a value or panics
    (assertion failure, arithmetic overflow, division by zero, [unwrap] on
    [None]). *)
Inductive Rust (A : Type) : Type :=
| Returns (a : A)
| Panics.
Arguments Returns {A} a.
Arguments Panics {A}.

Definition rbind {A B : Type} (m : Rust A) (k : A -> Rust B) : Rust B :=
  match m with
  | Returns a => k a
  | Panics => Panics
  end.

Notation "x <- c ;; k" := (rbind c (fun x => k))
  (at level 61, c at next level, right associativity).

Definition rassert (b : bool) : Rust unit :=
  if b then Returns tt else Panics.

(** ** The 256-bit unsigned integer. *)

(** Modelled from the spec: [crate::math::uint::U256] (not in the sources;
    it is the [uint] crate's [construct_uint!] type). Values are [Z] in
    [0, 2^256); [+], [-], [*] are exact and panic instead of wrapping,
    [/] panics on a zero divisor, [<<] drops the bits shifted out, and
    [integer_sqrt] is the floor square root. *)
Module Uint.
Definition MAX : Z := 2 ^ 256 - 1.
Definition in_range (a : Z) : bool := (0 <=? a) && (a <=? MAX).
Definition add (a b : Z) : Rust Z :=
  if a + b <=? MAX then Returns (a + b) else Panics.
Definition sub (a b : Z) : Rust Z :=
  if b <=? a then Returns (a - b) else Panics.
Definition mul (a b : Z) : Rust Z :=
  if a * b <=? MAX then Returns (a * b) else Panics.
Definition div (a b : Z) : Rust Z :=
  if b =? 0 then Panics else Returns (a / b).
Definition shl (a : Z) (n : Z) : Z := Z.shiftl a n mod 2 ^ 256.
Definition shr (a : Z) (n : Z) : Z := Z.shiftr a n.
Definition integer_sqrt (a : Z) : Z := Z.sqrt a.
Definition abs_diff (a b : Z) : Z := Z.abs (a - b).
Definition low_u128 (a : Z) : Z := a mod 2 ^ 128.
End Uint.

(** [U256([l0, l1, l2, l3])]: little-endian 64-bit limbs. *)
Definition U256 (limbs : list Z) : Z :=
  match limbs with
  | [l0; l1; l2; l3] => l0 + l1 * 2 ^ 64 + l2 * 2 ^ 128 + l3 * 2 ^ 192
  | _ => 0
  end.

(** Modelled from the spec: [crate::math::muldiv::muldiv] (not in the
    sources): [a * b / d] computed without intermediate overflow, rounded up
    when [round_up], [None] when [d = 0] or the quotient exceeds 256 bits. *)
Definition muldiv (a b d : Z) (round_up : bool) : option Z :=
  if d =? 0 then None
  else
    let q := if round_up && negb ((a * b) mod d =? 0)
             then a * b / d + 1 else a * b / d in
    if q <=? Uint.MAX then Some q else None.

(** ** src/math/tick.rs *)

Definition ONE_X128 : Z := U256 [0; 0; 1; 0].

Definition MASKS : list Z := [
  U256 [8987818235631183931; 18446734850344432284; 0; 0];
  U256 [1390292817054524432; 18446725626983924632; 0; 0];
  U256 [6106104599673403081; 18446707180276744355; 0; 0];
  U256 [11001558419889720088; 18446670286917723849; 0; 0];
  U256 [11758220747761187196; 18446596500421042512; 0; 0];
  U256 [13410380190397192564; 18446448928313114404; 0; 0];
  U256 [16901990496071521224; 18446153787638963396; 0; 0];
  U256 [2628633744169581664; 18445563520457217769; 0; 0];
  U256 [16741406942698519205; 18444383042757836574; 0; 0];
  U256 [8444515413536692068; 18442022313998591526; 0; 0];
  U256 [9306074004969915320; 18437301762902803792; 0; 0];
  U256 [1215727185815661655; 18427864285319361663; 0; 0];
  U256 [4836152305972799785; 18409003819927758022; 0; 0];
  U256 [465769373252535706; 18371340779054097314; 0; 0];
  U256 [11626538800767970419; 18296245704473805246; 0; 0];
  U256 [13511344043162985703; 18146975181141493926; 0; 0];
  U256 [17542275577360126846; 17852077684229624197; 0; 0];
  U256 [9306072323298629247; 17276581513264360642; 0; 0];
  U256 [8354374849381600509; 16180647793008867682; 0; 0];
  U256 [1840363272369915117; 14192930847592841948; 0; 0];
  U256 [16571633202497044730; 10920045577671636999; 0; 0];
  U256 [7981864148337927882; 6464414258794766152; 0; 0];
  U256 [4190795360855086819; 2265367348423649960; 0; 0];
  U256 [14440677137918516476; 278200272243057167; 0; 0];
  U256 [11954280435123913168; 4195612578938288; 0; 0];
  U256 [1943989925737446246; 954269482040; 0; 0];
  U256 [6723154418996326713; 49365; 0; 0]
].

Definition MIN_TICK : Z := -88722835.
Definition MAX_TICK : Z := 88722835.
Definition MAX_TICK_SPACING : Z := 698605.
Definition FULL_RANGE_TICK_SPACING : Z := 0.

Definition MIN_SQRT_RATIO : Z := U256 [447090492618910; 1; 0; 0].
Definition MAX_SQRT_RATIO : Z :=
  U256 [17284140499546007532; 7567914947700146222; 18446296994052723738; 0].

Definition i32_min : Z := - 2 ^ 31.
Definition i32_max : Z := 2 ^ 31 - 1.

(** [i32::abs] overflows (panics in debug builds) on [i32::MIN]. *)
Definition i32_abs (x : Z) : Rust Z :=
  if x =? i32_min then Panics else Returns (Z.abs x).

(** [MASKS.iter().enumerate()] *)
Definition enumerate (l : list Z) : list (Z * Z) :=
  combine (map Z.of_nat (seq 0 (length l))) l.

(** One iteration of the mask loop of [to_sqrt_ratio]. *)
Definition tick_step (tick_abs : Z) (acc : Rust Z) (im : Z * Z) : Rust Z :=
  let '(i, mask) := im in
  ratio <- acc ;;
  if negb (Z.land tick_abs (Z.shiftl 1 i) =? 0) then
    p <- Uint.mul ratio mask ;; Returns (Uint.shr p 128)
  else Returns ratio.

Definition to_sqrt_ratio (tick : Z) : Rust (option Z) :=
  if (tick <? MIN_TICK) || (MAX_TICK <? tick) then Returns None
  else
    tick_abs <- i32_abs tick ;;
    ratio <- fold_left (tick_step tick_abs) (enumerate MASKS) (Returns ONE_X128) ;;
    if 0 <? tick then
      r <- Uint.div Uint.MAX ratio ;; Returns (Some r)
    else Returns (Some ratio).

(** ** src/math/twamm/exp2.rs *)

Notation "'assert!' b ;; k" := (rbind (rassert b) (fun _ => k))
  (at level 61, b at next level, right associativity).

(** The 64 [mul_shift!(mask, factor)] lines of [exp2], in source order. *)
Definition EXP2_STEPS : list (Z * Z) := [
  (0x8000000000000000, 0x16A09E667F3BCC908B2FB1366EA957D3E);
  (0x4000000000000000, 0x1306FE0A31B7152DE8D5A46305C85EDEC);
  (0x2000000000000000, 0x1172B83C7D517ADCDF7C8C50EB14A791F);
  (0x1000000000000000, 0x10B5586CF9890F6298B92B71842A98363);
  (0x800000000000000, 0x1059B0D31585743AE7C548EB68CA417FD);
  (0x400000000000000, 0x102C9A3E778060EE6F7CACA4F7A29BDE8);
  (0x200000000000000, 0x10163DA9FB33356D84A66AE336DCDFA3F);
  (0x100000000000000, 0x100B1AFA5ABCBED6129AB13EC11DC9543);
  (0x80000000000000, 0x10058C86DA1C09EA1FF19D294CF2F679B);
  (0x40000000000000, 0x1002C605E2E8CEC506D21BFC89A23A00F);
  (0x20000000000000, 0x100162F3904051FA128BCA9C55C31E5DF);
  (0x10000000000000, 0x1000B175EFFDC76BA38E31671CA939725);
  (0x8000000000000, 0x100058BA01FB9F96D6CACD4B180917C3D);
  (0x4000000000000, 0x10002C5CC37DA9491D0985C348C68E7B3);
  (0x2000000000000, 0x1000162E525EE054754457D5995292026);
  (0x1000000000000, 0x10000B17255775C040618BF4A4ADE83FC);
  (0x800000000000, 0x1000058B91B5BC9AE2EED81E9B7D4CFAB);
  (0x400000000000, 0x100002C5C89D5EC6CA4D7C8ACC017B7C9);
  (0x200000000000, 0x10000162E43F4F831060E02D839A9D16D);
  (0x100000000000, 0x100000B1721BCFC99D9F890EA06911763);
  (0x80000000000, 0x10000058B90CF1E6D97F9CA14DBCC1628);
  (0x40000000000, 0x1000002C5C863B73F016468F6BAC5CA2B);
  (0x20000000000, 0x100000162E430E5A18F6119E3C02282A5);
  (0x10000000000, 0x1000000B1721835514B86E6D96EFD1BFE);
  (0x8000000000, 0x100000058B90C0B48C6BE5DF846C5B2EF);
  (0x4000000000, 0x10000002C5C8601CC6B9E94213C72737A);
  (0x2000000000, 0x1000000162E42FFF037DF38AA2B219F06);
  (0x1000000000, 0x10000000B17217FBA9C739AA5819F44F9);
  (0x800000000, 0x1000000058B90BFCDEE5ACD3C1CEDC823);
  (0x400000000, 0x100000002C5C85FE31F35A6A30DA1BE50);
  (0x200000000, 0x10000000162E42FF0999CE3541B9FFFCF);
  (0x100000000, 0x100000000B17217F80F4EF5AADDA45554);
  (0x80000000, 0x10000000058B90BFBF8479BD5A81B51AD);
  (0x40000000, 0x1000000002C5C85FDF84BD62AE30A74CC);
  (0x20000000, 0x100000000162E42FEFB2FED257559BDAA);
  (0x10000000, 0x1000000000B17217F7D5A7716BBA4A9AE);
  (0x8000000, 0x100000000058B90BFBE9DDBAC5E109CCE);
  (0x4000000, 0x10000000002C5C85FDF4B15DE6F17EB0D);
  (0x2000000, 0x1000000000162E42FEFA494F1478FDE05);
  (0x1000000, 0x10000000000B17217F7D20CF927C8E94C);
  (0x800000, 0x1000000000058B90BFBE8F71CB4E4B33D);
  (0x400000, 0x100000000002C5C85FDF477B662B26945);
  (0x200000, 0x10000000000162E42FEFA3AE53369388C);
  (0x100000, 0x100000000000B17217F7D1D351A389D40);
  (0x80000, 0x10000000000058B90BFBE8E8B2D3D4EDE);
  (0x40000, 0x1000000000002C5C85FDF4741BEA6E77E);
  (0x20000, 0x100000000000162E42FEFA39FE95583C2);
  (0x10000, 0x1000000000000B17217F7D1CFB72B45E1);
  (0x8000, 0x100000000000058B90BFBE8E7CC35C3F0);
  (0x4000, 0x10000000000002C5C85FDF473E242EA38);
  (0x2000, 0x1000000000000162E42FEFA39F02B772C);
  (0x1000, 0x10000000000000B17217F7D1CF7D83C1A);
  (0x800, 0x1000000000000058B90BFBE8E7BDCBE2E);
  (0x400, 0x100000000000002C5C85FDF473DEA871F);
  (0x200, 0x10000000000000162E42FEFA39EF44D91);
  (0x100, 0x100000000000000B17217F7D1CF79E949);
  (0x80, 0x10000000000000058B90BFBE8E7BCE544);
  (0x40, 0x1000000000000002C5C85FDF473DE6ECA);
  (0x20, 0x100000000000000162E42FEFA39EF366F);
  (0x10, 0x1000000000000000B17217F7D1CF79AFA);
  (0x8, 0x100000000000000058B90BFBE8E7BCD6D);
  (0x4, 0x10000000000000002C5C85FDF473DE6B2);
  (0x2, 0x1000000000000000162E42FEFA39EF358);
  (0x1, 0x10000000000000000B17217F7D1CF79AB)
].

(** [mul_shift!(mask, factor)]: multiply by [factor] and rescale when the
    bit [mask] of [x] is set. *)
Definition mul_shift (x : Z) (acc : Rust Z) (mf : Z * Z) : Rust Z :=
  let '(mask, factor) := mf in
  result <- acc ;;
  if negb (Z.land x mask =? 0) then
    p <- Uint.mul result factor ;; Returns (Uint.shr p 128)
  else Returns result.

(** [exp2(x: i128) -> u128]; [x] is a Q64.64 exponent. *)
Definition exp2 (x : Z) : Rust Z :=
  assert! (x <? 0x400000000000000000) ;;
  if x <? - 0x400000000000000000 then Returns 0
  else
    result <- fold_left (mul_shift x) EXP2_STEPS (Returns (Z.shiftl 1 127)) ;;
    (* [(63 - (x >> 64)) as u32] *)
    let shift := (63 - Z.shiftr x 64) mod 2 ^ 32 in
    let result := Uint.shr result shift in
    assert! (result <=? 2 ^ 128 - 1) ;;
    Returns result.

(** ** src/math/twamm/sqrt_ratio.rs *)

Definition unwrap {A : Type} (o : option A) : Rust A :=
  match o with Some a => Returns a | None => Panics end.

Definition unwrap_or {A : Type} (o : option A) (d : A) : A :=
  match o with Some a => a | None => d end.

Definition TWO_POW_64 : Z := U256 [0; 1; 0; 0].

Definition compute_sqrt_sale_ratio (sale_rate_token0 sale_rate_token1 : Z) : Rust Z :=
  sale_ratio <- Uint.div (Uint.shl sale_rate_token1 128) sale_rate_token0 ;;
  if U256 [0; 0; 0; 1] <=? sale_ratio then
    Returns (Uint.shl (Uint.integer_sqrt (Uint.shl sale_ratio 16)) 56)
  else if U256 [0; 0; 1; 0] <=? sale_ratio then
    (* we know it only has 192 bits, so we can shift it 64 before rooting *)
    Returns (Uint.shl (Uint.integer_sqrt (Uint.shl sale_ratio 64)) 32)
  else
    (* full precision *)
    Returns (Uint.integer_sqrt (Uint.shl sale_ratio 128)).

Definition compute_c (sqrt_ratio sqrt_sale_ratio : Z) : Rust (Z * bool) :=
  if sqrt_ratio <=? sqrt_sale_ratio then
    d <- Uint.sub sqrt_sale_ratio sqrt_ratio ;;
    s <- Uint.add sqrt_sale_ratio sqrt_ratio ;;
    c <- unwrap (muldiv d (U256 [0; 0; 1; 0]) s false) ;;
    Returns (c, false)
  else
    d <- Uint.sub sqrt_ratio sqrt_sale_ratio ;;
    s <- Uint.add sqrt_sale_ratio sqrt_ratio ;;
    c <- unwrap (muldiv d (U256 [0; 0; 1; 0]) s false) ;;
    Returns (c, true).

(** [muldiv(sqrt_sale_ratio, e_pow_exponent + c, e_pow_exponent.abs_diff(c),
    round_up).unwrap_or(sqrt_sale_ratio)], the text of both branches of the
    [if negative] in [calculate_next_sqrt_ratio]. *)
Definition next_branch (sqrt_sale_ratio e_pow_exponent c : Z) (round_up : bool) : Rust Z :=
  n <- Uint.add e_pow_exponent c ;;
  Returns (unwrap_or
             (muldiv sqrt_sale_ratio n (Uint.abs_diff e_pow_exponent c) round_up)
             sqrt_sale_ratio).

Definition calculate_next_sqrt_ratio (sqrt_ratio liquidity sale_rate_token0
    sale_rate_token1 time_elapsed fee : Z) : Rust Z :=
  sqrt_sale_ratio <- compute_sqrt_sale_ratio sale_rate_token0 sale_rate_token1 ;;
  if liquidity =? 0 then Returns sqrt_sale_ratio
  else
    cn <- compute_c sqrt_sale_ratio sqrt_ratio ;;
    let '(c, negative) := cn in
    if (c =? 0) || (liquidity =? 0) then Returns sqrt_sale_ratio
    else
      p <- Uint.mul sale_rate_token1 sale_rate_token0 ;;
      f <- Uint.sub TWO_POW_64 fee ;;
      q <- Uint.mul (Uint.integer_sqrt p) f ;;
      sale_rate <- Uint.div q TWO_POW_64 ;;
      let round_up := sqrt_sale_ratio <? sqrt_ratio in
      e1 <- Uint.mul sale_rate time_elapsed ;;
      e2 <- Uint.mul e1 (U256 [12392656037; 0; 0; 0]) ;;
      exponent <- Uint.div e2 liquidity ;;
      if 0x400000000000000000 <=? exponent then Returns sqrt_sale_ratio
      else
        ex <- exp2 (Uint.low_u128 exponent) ;;
        let e_pow_exponent := Uint.shl ex 64 in
        sqrt_ratio_next <-
          (if negative then next_branch sqrt_sale_ratio e_pow_exponent c round_up
           else next_branch sqrt_sale_ratio e_pow_exponent c round_up) ;;
        (* we should never exceed the sale ratio *)
        if round_up then Returns (Z.max sqrt_ratio_next sqrt_sale_ratio)
        else Returns (Z.min sqrt_ratio_next sqrt_sale_ratio).

(** ** Bit-indexed views of the two table loops, used in the proofs. *)

(** The factor of [exp2] applied for bit [n] of the fractional part. *)
Definition EXP2_FACTOR (n : nat) : Z := nth (63 - n) (map snd EXP2_STEPS) 0.

Definition exp2_step (n : nat) (x r : Z) : Rust Z :=
  if Z.testbit x (Z.of_nat n) then
    p <- Uint.mul r (EXP2_FACTOR n) ;; Returns (Uint.shr p 128)
  else Returns r.

(** Bits [n-1], ..., [0], highest first, as in the source. *)
Fixpoint exp2_loop (n : nat) (x r : Z) : Rust Z :=
  match n with
  | O => Returns r
  | S m => s <- exp2_step m x r ;; exp2_loop m x s
  end.

Definition exp2_step_pure (n : nat) (x r : Z) : Z :=
  if Z.testbit x (Z.of_nat n) then r * EXP2_FACTOR n / 2 ^ 128 else r.

Fixpoint exp2_loop_pure (n : nat) (x r : Z) : Z :=
  match n with
  | O => r
  | S m => exp2_loop_pure m x (exp2_step_pure m x r)
  end.

Fixpoint exp2_factor_prod (n : nat) : Z :=
  match n with
  | O => 1
  | S m => exp2_factor_prod m * EXP2_FACTOR m
  end.

(** Accumulator of [exp2] after the [k] highest bits, all of them set. *)
Fixpoint exp2_bound (k : nat) : Z :=
  match k with
  | O => 2 ^ 127
  | S j => Z.shiftr (exp2_bound j * EXP2_FACTOR (63 - j)) 128
  end.

Definition MASK (n : nat) : Z := nth n MASKS 0.

Definition tick_step_n (n : nat) (t r : Z) : Rust Z :=
  if Z.testbit t (Z.of_nat n) then
    p <- Uint.mul r (MASK n) ;; Returns (Uint.shr p 128)
  else Returns r.

(** Bits [0], ..., [n-1], lowest first, as in the source. *)
Fixpoint tick_loop (n : nat) (t : Z) : Rust Z :=
  match n with
  | O => Returns ONE_X128
  | S m => r <- tick_loop m t ;; tick_step_n m t r
  end.

Definition tick_step_pure (n : nat) (t r : Z) : Z :=
  if Z.testbit t (Z.of_nat n) then r * MASK n / 2 ^ 128 else r.

Fixpoint tick_loop_pure (n : nat) (t : Z) : Z :=
  match n with
  | O => ONE_X128
  | S m => tick_step_pure m t (tick_loop_pure m t)
  end.

(** Exact (untruncated) product of the loop, every factor over [2^128]:
    the factor of an unset bit is [2^128]. *)
Fixpoint tick_exact (n : nat) (t : Z) : Z :=
  match n with
  | O => 1
  | S m => tick_exact m t * (if Z.testbit t (Z.of_nat m) then MASK m else 2 ^ 128)
  end.

Fixpoint mask_prod (n : nat) : Z :=
  match n with
  | O => 1
  | S m => mask_prod m * MASK m
  end.

(** Normalised upper bound on the product of the first [n] factors of
    [exp2]'s table (each step rounded up). *)
Fixpoint exp2_norm (n : nat) : Z :=
  match n with
  | O => 2 ^ 128
  | S m => Z.shiftr (exp2_norm m * EXP2_FACTOR m + (2 ^ 128 - 1)) 128
  end.

(** Normalised lower bound on [mask_prod n] (each step rounded down). *)
Fixpoint mask_norm (n : nat) : Z :=
  match n with
  | O => 2 ^ 128
  | S m => Z.shiftr (mask_norm m * MASK m) 128
  end.

(** Normalised lower bound on [tick_exact n t] (each step rounded down). *)
Fixpoint tick_norm (n : nat) (t : Z) : Z :=
  match n with
  | O => 2 ^ 128
  | S m => Z.shiftr (tick_norm m t *
             (if Z.testbit t (Z.of_nat m) then MASK m else 2 ^ 128)) 128
  end.

(** One pass over the [k]-th to [(k + n - 1)]-th accumulator bounds, [b]
    being the [k]-th: no product overflows and the bounds increase. *)
Fixpoint exp2_bound_scan (k n : nat) (b : Z) : bool :=
  match n with
  | O => true
  | S n' =>
      let b' := Z.shiftr (b * EXP2_FACTOR (63 - k)) 128 in
      (b * EXP2_FACTOR (63 - k) <=? Uint.MAX) && (b <=? b') &&
      exp2_bound_scan (S k) n' b'
  end.

(** ** src/quoting/oracle_pool.rs *)

(** The quoting types of [crate::quoting::types] that [OraclePool::quote]
    reads and builds; the full-range pool's own state, resources, quote error
    and the pool itself stay abstract (type parameters). *)
Record TokenAmount := { amount : Z; token : Z }.

Record QuoteParams (S M : Type) := {
  token_amount : TokenAmount;
  sqrt_ratio_limit : option Z;
  override_state : option S;
  meta : M
}.
Arguments Build_QuoteParams {S M}.
Arguments token_amount {S M}.
Arguments sqrt_ratio_limit {S M}.
Arguments override_state {S M}.
Arguments meta {S M}.

Record Quote (R S : Type) := {
  calculated_amount : Z;
  consumed_amount : Z;
  execution_resources : R;
  fees_paid : Z;
  is_price_increasing : bool;
  state_after : S
}.
Arguments Build_Quote {R S}.
Arguments calculated_amount {R S}.
Arguments consumed_amount {R S}.
Arguments execution_resources {R S}.
Arguments fees_paid {R S}.
Arguments is_price_increasing {R S}.
Arguments state_after {R S}.

Inductive Result (T E : Type) : Type :=
| Ok (t : T)
| Err (e : E).
Arguments Ok {T E} t.
Arguments Err {T E} e.

Module OraclePoolState.
Record OraclePoolState (FS : Type) := {
  full_range_pool_state : FS;
  last_snapshot_time : Z
}.
Arguments Build_OraclePoolState {FS}.
Arguments full_range_pool_state {FS}.
Arguments last_snapshot_time {FS}.
End OraclePoolState.
Import OraclePoolState (OraclePoolState, Build_OraclePoolState, full_range_pool_state).

Record OraclePoolResources (FR : Type) := {
  full_range_pool_resources : FR;
  snapshots_written : Z
}.
Arguments Build_OraclePoolResources {FR}.
Arguments full_range_pool_resources {FR}.
Arguments snapshots_written {FR}.

Module OraclePool.
Record OraclePool (P : Type) := {
  full_range_pool : P;
  last_snapshot_time : Z
}.
Arguments Build_OraclePool {P}.
Arguments full_range_pool {P}.
Arguments last_snapshot_time {P}.
End OraclePool.
Import OraclePool (OraclePool, Build_OraclePool, full_range_pool).

(** [<OraclePool as Pool>::quote]. The inner [FullRangePool::quote] is the
    parameter [full_range_pool_quote]; [?] propagates its error. *)
Definition quote {P FS FR E : Type}
    (full_range_pool_quote : P -> QuoteParams FS unit -> Result (Quote FR FS) E)
    (self : OraclePool P) (params : QuoteParams (OraclePoolState FS) Z)
    : Result (Quote (OraclePoolResources FR) (OraclePoolState FS)) E :=
  let block_time := meta params in
  let pool_time :=
    match override_state params with
    | Some os => OraclePoolState.last_snapshot_time os
    | None => OraclePool.last_snapshot_time self
    end in
  match full_range_pool_quote (full_range_pool self)
          {| sqrt_ratio_limit := sqrt_ratio_limit params;
             override_state := option_map full_range_pool_state (override_state params);
             token_amount := token_amount params;
             meta := tt |} with
  | Err e => Err e
  | Ok result =>
      Ok {| calculated_amount := calculated_amount result;
            consumed_amount := consumed_amount result;
            execution_resources :=
              {| snapshots_written := if negb (pool_time =? block_time) then 1 else 0;
                 full_range_pool_resources := execution_resources result |};
            fees_paid := fees_paid result;
            is_price_increasing := is_price_increasing result;
            state_after :=
              {| full_range_pool_state := state_after result;
                 OraclePoolState.last_snapshot_time := block_time |} |}
  end.

(** [<OraclePool as Pool>::get_state]; [FullRangePool::get_state] is the
    parameter [full_range_pool_get_state]. *)
Definition get_state {P FS : Type} (full_range_pool_get_state : P -> FS)
    (self : OraclePool P) : OraclePoolState FS :=
  {| full_range_pool_state := full_range_pool_get_state (full_range_pool self);
     OraclePoolState.last_snapshot_time := OraclePool.last_snapshot_time self |}.

(** [u32] [+=] and [-=] with Rust's overflow check (a panic; the sources
    set no profile, and a checked build panics). *)
Definition u32_add (a b : Z) : Rust Z :=
  if a + b <? 2 ^ 32 then Returns (a + b) else Panics.
Definition u32_sub (a b : Z) : Rust Z :=
  if b <=? a then Returns (a - b) else Panics.

(** [impl Add for OraclePoolResources] (through [AddAssign]); the
    full-range resources' own [+=] is the parameter [fr_add]. *)
Definition resources_add {FR : Type} (fr_add : FR -> FR -> Rust FR)
    (self rhs : OraclePoolResources FR) : Rust (OraclePoolResources FR) :=
  f <- fr_add (full_range_pool_resources self) (full_range_pool_resources rhs) ;;
  s <- u32_add (snapshots_written self) (snapshots_written rhs) ;;
  Returns {| full_range_pool_resources := f; snapshots_written := s |}.

(** [impl Sub for OraclePoolResources] (through [SubAssign]). *)
Definition resources_sub {FR : Type} (fr_sub : FR -> FR -> Rust FR)
    (self rhs : OraclePoolResources FR) : Rust (OraclePoolResources FR) :=
  f <- fr_sub (full_range_pool_resources self) (full_range_pool_resources rhs) ;;
  s <- u32_sub (snapshots_written self) (snapshots_written rhs) ;;
  Returns {| full_range_pool_resources := f; snapshots_written := s |}.

(** A full-range quote used to exercise [quote]. *)
Definition example_full_range_quote (_ : unit) (p : QuoteParams Z unit)
    : Result (Quote Z Z) unit :=
  Ok {| calculated_amount := 5; consumed_amount := amount (token_amount p);
        execution_resources := 1; fees_paid := 0; is_price_increasing := true;
        state_after := 7 |}.

(** * Proofs *)

(** ** Generic facts *)

Lemma forallb_seq (f : nat -> bool) a len :
  forallb f (seq a len) = true -> forall n, (a <= n < a + len)%nat -> f n = true.
Proof. intros H n Hn. rewrite forallb_forall in H. apply H, in_seq; lia. Qed.

Lemma land_pow2 x i :
  0 <= i -> Z.land x (2 ^ i) = if Z.testbit x i then 2 ^ i else 0.
Proof.
  intros Hi. apply Z.bits_inj'. intros j Hj.
  rewrite Z.land_spec, Z.pow2_bits_eqb by lia.
  destruct (Z.eqb_spec i j) as [<-|Hne]; destruct (Z.testbit x i) eqn:E;
    rewrite ?Z.pow2_bits_eqb, ?Z.bits_0 by lia; simpl; rewrite ?Z.eqb_refl;
    try reflexivity.
  - rewrite andb_false_r. apply Z.eqb_neq in Hne. now rewrite Hne.
  - now rewrite andb_false_r.
Qed.

Lemma land_pow2_eqb x i :
  0 <= i -> (Z.land x (2 ^ i) =? 0) = negb (Z.testbit x i).
Proof.
  intros Hi. rewrite land_pow2 by lia.
  destruct (Z.testbit x i); [|reflexivity].
  apply Z.eqb_neq. pose proof (Z.pow_pos_nonneg 2 i). lia.
Qed.

Lemma Returns_inj {A} (a b : A) : Returns a = Returns b -> a = b.
Proof. congruence. Qed.

Lemma rbind_returns {A B} (a : A) (k : A -> Rust B) :
  rbind (Returns a) k = k a.
Proof. reflexivity. Qed.

(** ** exp2: the table loop *)

Lemma exp2_table_ok :
  forallb (fun n => (2 ^ 128 <=? EXP2_FACTOR n) && (exp2_norm n <=? EXP2_FACTOR n))
    (seq 0 64) && (exp2_norm 64 <? 2 ^ 129) = true.
Proof. vm_compute. reflexivity. Qed.

Lemma exp2_bound_scan_ok : exp2_bound_scan 0 64 (exp2_bound 0) = true.
Proof. vm_compute. reflexivity. Qed.

Lemma exp2_bound_scan_spec n k i :
  exp2_bound_scan k n (exp2_bound k) = true -> (i < n)%nat ->
  (exp2_bound (k + i) * EXP2_FACTOR (63 - (k + i)) <=? Uint.MAX) &&
  (exp2_bound (k + i) <=? exp2_bound (S (k + i))) = true.
Proof.
  revert k i. induction n as [|n IH]; intros k i H Hi; [lia|].
  cbn [exp2_bound_scan] in H. apply andb_true_iff in H as [H0 H1].
  destruct i as [|i].
  - rewrite Nat.add_0_r. exact H0.
  - replace (k + S i)%nat with (S k + i)%nat by lia. apply IH; [exact H1 | lia].
Qed.

Lemma exp2_bound_ok k :
  (k < 64)%nat ->
  (exp2_bound k * EXP2_FACTOR (63 - k) <=? Uint.MAX) &&
  (exp2_bound k <=? exp2_bound (S k)) = true.
Proof. intros Hk. exact (exp2_bound_scan_spec 64 0 k exp2_bound_scan_ok Hk). Qed.

Lemma ceil_shiftr X : X <= Z.shiftr (X + (2 ^ 128 - 1)) 128 * 2 ^ 128.
Proof.
  rewrite Z.shiftr_div_pow2 by lia.
  pose proof (Z.mod_pos_bound (X + (2 ^ 128 - 1)) (2 ^ 128) ltac:(lia)).
  pose proof (Z.div_mod (X + (2 ^ 128 - 1)) (2 ^ 128) ltac:(lia)). lia.
Qed.

Lemma floor_shiftr X : Z.shiftr X 128 * 2 ^ 128 <= X.
Proof.
  rewrite Z.shiftr_div_pow2 by lia.
  pose proof (Z.mod_pos_bound X (2 ^ 128) ltac:(lia)).
  pose proof (Z.div_mod X (2 ^ 128) ltac:(lia)). lia.
Qed.

Lemma EXP2_FACTOR_ge n : (n < 64)%nat -> 2 ^ 128 <= EXP2_FACTOR n.
Proof.
  intros Hn. pose proof exp2_table_ok as H. apply andb_true_iff in H as [H _].
  pose proof (forallb_seq _ _ _ H n ltac:(lia)) as H'.
  apply andb_true_iff in H' as [H' _]. now apply Z.leb_le.
Qed.

Lemma exp2_norm_le n : (n < 64)%nat -> exp2_norm n <= EXP2_FACTOR n.
Proof.
  intros Hn. pose proof exp2_table_ok as H. apply andb_true_iff in H as [H _].
  pose proof (forallb_seq _ _ _ H n ltac:(lia)) as H'.
  apply andb_true_iff in H' as [_ H']. now apply Z.leb_le.
Qed.

Lemma exp2_norm_top : exp2_norm 64 < 2 ^ 129.
Proof.
  pose proof exp2_table_ok as H. apply andb_true_iff in H as [_ H].
  now apply Z.ltb_lt.
Qed.

Lemma exp2_norm_spec n :
  (n <= 64)%nat -> exp2_factor_prod n * 2 ^ 128 <= exp2_norm n * 2 ^ (128 * Z.of_nat n).
Proof.
  induction n as [|m IH]; intros Hn.
  - cbn [exp2_factor_prod exp2_norm]. rewrite Z.mul_0_r, Z.pow_0_r. lia.
  - cbn [exp2_factor_prod exp2_norm].
    pose proof (EXP2_FACTOR_ge m ltac:(lia)) as HF. specialize (IH ltac:(lia)).
    rewrite Nat2Z.inj_succ, Z.mul_succ_r, Z.pow_add_r by lia.
    assert (HE : 0 < 2 ^ (128 * Z.of_nat m)) by (apply Z.pow_pos_nonneg; lia).
    pose proof (ceil_shiftr (exp2_norm m * EXP2_FACTOR m)) as HC.
    assert (A1 : exp2_factor_prod m * 2 ^ 128 * EXP2_FACTOR m <=
                 exp2_norm m * 2 ^ (128 * Z.of_nat m) * EXP2_FACTOR m)
      by (apply Z.mul_le_mono_nonneg_r; lia).
    assert (A2 : exp2_norm m * EXP2_FACTOR m * 2 ^ (128 * Z.of_nat m) <=
                 Z.shiftr (exp2_norm m * EXP2_FACTOR m + (2 ^ 128 - 1)) 128 * 2 ^ 128 *
                 2 ^ (128 * Z.of_nat m))
      by (apply Z.mul_le_mono_nonneg_r; lia).
    lia.
Qed.

Lemma EXP2_FACTOR_prod n :
  (n < 64)%nat -> exp2_factor_prod n * 2 ^ 128 <= EXP2_FACTOR n * 2 ^ (128 * Z.of_nat n).
Proof.
  intros Hn. pose proof (exp2_norm_spec n ltac:(lia)) as H.
  pose proof (exp2_norm_le n Hn) as HL.
  assert (HE : 0 <= 2 ^ (128 * Z.of_nat n)) by (apply Z.pow_nonneg; lia).
  assert (exp2_norm n * 2 ^ (128 * Z.of_nat n) <= EXP2_FACTOR n * 2 ^ (128 * Z.of_nat n))
    by (apply Z.mul_le_mono_nonneg_r; lia).
  lia.
Qed.

Lemma exp2_top_ok : 2 ^ 127 * exp2_factor_prod 64 < 2 ^ 128 * 2 ^ (128 * 64).
Proof.
  pose proof (exp2_norm_spec 64 ltac:(lia)) as H. pose proof exp2_norm_top as T.
  change (128 * Z.of_nat 64) with (128 * 64) in H.
  assert (HD : 0 < 2 ^ (128 * 64)) by (apply Z.pow_pos_nonneg; lia).
  revert H HD. generalize (2 ^ (128 * 64)) as D. intros D H HD.
  assert (exp2_norm 64 * D < 2 ^ 129 * D) by (apply Z.mul_lt_mono_pos_r; lia).
  lia.
Qed.

Lemma EXP2_STEPS_map :
  EXP2_STEPS = map (fun n => (2 ^ Z.of_nat n, EXP2_FACTOR n)) (rev (seq 0 64)).
Proof. vm_compute. reflexivity. Qed.

Lemma mul_shift_panics x l : fold_left (mul_shift x) l Panics = Panics.
Proof. induction l as [|[m f] l IH]; simpl; auto. Qed.

Lemma fold_mul_shift x k r :
  fold_left (mul_shift x) (map (fun n => (2 ^ Z.of_nat n, EXP2_FACTOR n)) (rev (seq 0 k)))
    (Returns r) = exp2_loop k x r.
Proof.
  revert r. induction k as [|k IH]; intros r; [reflexivity|].
  rewrite seq_S, rev_app_distr. simpl (rev [0 + k]%nat).
  cbn [app map fold_left]. cbn [exp2_loop].
  unfold mul_shift at 2, exp2_step. rewrite rbind_returns.
  rewrite land_pow2_eqb by lia. destruct (Z.testbit x (Z.of_nat k)); simpl negb.
  - cbv iota. unfold Uint.mul. destruct (r * EXP2_FACTOR k <=? Uint.MAX).
    + apply IH.
    + apply mul_shift_panics.
  - apply IH.
Qed.

Lemma exp2_fold x r :
  fold_left (mul_shift x) EXP2_STEPS (Returns r) = exp2_loop 64 x r.
Proof. rewrite EXP2_STEPS_map. apply fold_mul_shift. Qed.

Lemma exp2_step_pure_bounds n x r :
  (n < 64)%nat -> 0 <= r ->
  r <= exp2_step_pure n x r /\ exp2_step_pure n x r * 2 ^ 128 <= r * EXP2_FACTOR n.
Proof.
  intros Hn Hr. pose proof (EXP2_FACTOR_ge n Hn) as HF.
  unfold exp2_step_pure. destruct (Z.testbit x (Z.of_nat n)); split.
  - apply Z.div_le_lower_bound; [lia|]. nia.
  - rewrite Z.mul_comm. apply Z.mul_div_le. lia.
  - lia.
  - nia.
Qed.

Lemma exp2_loop_pure_ge n x r :
  (n <= 64)%nat -> 0 <= r -> r <= exp2_loop_pure n x r.
Proof.
  revert r. induction n as [|n IH]; intros r Hn Hr; simpl; [lia|].
  destruct (exp2_step_pure_bounds n x r ltac:(lia) Hr) as [H1 _].
  specialize (IH (exp2_step_pure n x r) ltac:(lia) ltac:(lia)). lia.
Qed.

Lemma exp2_factor_prod_pos n : (n <= 64)%nat -> 0 < exp2_factor_prod n.
Proof.
  induction n as [|n IH]; intros Hn; simpl; [lia|].
  pose proof (EXP2_FACTOR_ge n ltac:(lia)). pose proof (IH ltac:(lia)). nia.
Qed.

(** Truncation only loses: the loop is below the exact product. *)
Lemma exp2_loop_pure_upper n x r :
  (n <= 64)%nat -> 0 <= r ->
  exp2_loop_pure n x r * 2 ^ (128 * Z.of_nat n) <= r * exp2_factor_prod n.
Proof.
  revert r. induction n as [|n IH]; intros r Hn Hr; simpl exp2_loop_pure.
  - simpl. lia.
  - destruct (exp2_step_pure_bounds n x r ltac:(lia) Hr) as [H1 H2].
    specialize (IH (exp2_step_pure n x r) ltac:(lia) ltac:(lia)).
    pose proof (exp2_factor_prod_pos n ltac:(lia)) as HP.
    replace (128 * Z.of_nat (S n)) with (128 * Z.of_nat n + 128) by lia.
    rewrite Z.pow_add_r by lia. simpl exp2_factor_prod.
    set (s := exp2_step_pure n x r) in *.
    set (L := exp2_loop_pure n x s) in *.
    set (D := 2 ^ (128 * Z.of_nat n)) in *.
    assert (L * D * 2 ^ 128 <= s * exp2_factor_prod n * 2 ^ 128)
      by (apply Z.mul_le_mono_nonneg_r; lia).
    assert (s * 2 ^ 128 * exp2_factor_prod n <= r * EXP2_FACTOR n * exp2_factor_prod n)
      by (apply Z.mul_le_mono_nonneg_r; lia).
    nia.
Qed.

Lemma exp2_loop_pure_bits n x y r :
  (forall i, (i < n)%nat -> Z.testbit x (Z.of_nat i) = Z.testbit y (Z.of_nat i)) ->
  exp2_loop_pure n x r = exp2_loop_pure n y r.
Proof.
  revert r. induction n as [|n IH]; intros r H; simpl; [reflexivity|].
  unfold exp2_step_pure. rewrite (H n ltac:(lia)).
  apply IH. intros i Hi. apply H. lia.
Qed.

Lemma testbit_mod_pow2 a n i :
  (i < n)%nat -> Z.testbit (a mod 2 ^ Z.of_nat n) (Z.of_nat i) = Z.testbit a (Z.of_nat i).
Proof. intros H. apply Z.mod_pow2_bits_low. lia. Qed.

Lemma testbit_top a n :
  0 <= a < 2 ^ (Z.of_nat n + 1) -> Z.testbit a (Z.of_nat n) = (2 ^ Z.of_nat n <=? a).
Proof.
  intros Ha. rewrite Z.testbit_eqb by lia.
  assert (Hp : 0 < 2 ^ Z.of_nat n) by (apply Z.pow_pos_nonneg; lia).
  rewrite Z.pow_add_r in Ha by lia.
  assert (a / 2 ^ Z.of_nat n < 2) by (apply Z.div_lt_upper_bound; lia).
  assert (0 <= a / 2 ^ Z.of_nat n) by (apply Z.div_pos; lia).
  destruct (Z.leb_spec (2 ^ Z.of_nat n) a) as [Hle|Hlt].
  - assert (1 <= a / 2 ^ Z.of_nat n) by (apply Z.div_le_lower_bound; lia).
    assert (a / 2 ^ Z.of_nat n = 1) as -> by lia. reflexivity.
  - rewrite Z.div_small by lia. reflexivity.
Qed.

(** The loop is monotone in the fractional bits: one set bit outweighs all
    the lower ones together. *)
Lemma exp2_loop_pure_mono n u v r :
  (n <= 64)%nat -> 0 <= r -> 0 <= u < v -> v < 2 ^ Z.of_nat n ->
  exp2_loop_pure n u r <= exp2_loop_pure n v r.
Proof.
  revert u v r. induction n as [|n IH]; intros u v r Hn Hr Huv Hv.
  - simpl in Hv. lia.
  - assert (HP : 0 < 2 ^ Z.of_nat n) by (apply Z.pow_pos_nonneg; lia).
    assert (H2 : 2 ^ Z.of_nat (S n) = 2 ^ Z.of_nat n * 2)
      by (rewrite Nat2Z.inj_succ, Z.pow_succ_r by lia; lia).
    simpl exp2_loop_pure.
    rewrite (exp2_loop_pure_bits n u (u mod 2 ^ Z.of_nat n))
      by (intros; symmetry; now apply testbit_mod_pow2).
    rewrite (exp2_loop_pure_bits n v (v mod 2 ^ Z.of_nat n))
      by (intros; symmetry; now apply testbit_mod_pow2).
    assert (Hu := testbit_top u n ltac:(rewrite Z.pow_add_r; lia)).
    assert (Hv' := testbit_top v n ltac:(rewrite Z.pow_add_r; lia)).
    pose proof (Z.mod_pos_bound u _ HP). pose proof (Z.mod_pos_bound v _ HP).
    pose proof (Z.div_mod u (2 ^ Z.of_nat n) ltac:(lia)).
    pose proof (Z.div_mod v (2 ^ Z.of_nat n) ltac:(lia)).
    unfold exp2_step_pure. rewrite Hu, Hv'.
    destruct (Z.leb_spec (2 ^ Z.of_nat n) u), (Z.leb_spec (2 ^ Z.of_nat n) v).
    + (* both bits set *)
      assert (u / 2 ^ Z.of_nat n = 1).
      { assert (1 <= u / 2 ^ Z.of_nat n) by (apply Z.div_le_lower_bound; lia).
        assert (u / 2 ^ Z.of_nat n < 2) by (apply Z.div_lt_upper_bound; lia). lia. }
      assert (v / 2 ^ Z.of_nat n = 1).
      { assert (1 <= v / 2 ^ Z.of_nat n) by (apply Z.div_le_lower_bound; lia).
        assert (v / 2 ^ Z.of_nat n < 2) by (apply Z.div_lt_upper_bound; lia). lia. }
      pose proof (EXP2_FACTOR_ge n ltac:(lia)).
      apply IH; try lia. apply Z.div_pos; nia.
    + lia.
    + (* the highest differing bit is [n] *)
      set (s := r * EXP2_FACTOR n / 2 ^ 128).
      pose proof (EXP2_FACTOR_ge n ltac:(lia)).
      assert (Hs : 0 <= s) by (apply Z.div_pos; nia).
      pose proof (exp2_loop_pure_ge n (v mod 2 ^ Z.of_nat n) s ltac:(lia) Hs).
      pose proof (exp2_loop_pure_upper n (u mod 2 ^ Z.of_nat n) r ltac:(lia) Hr) as HU.
      pose proof (EXP2_FACTOR_prod n ltac:(lia)) as HC.
      set (L := exp2_loop_pure n (u mod 2 ^ Z.of_nat n) r) in *.
      set (D := 2 ^ (128 * Z.of_nat n)) in *.
      assert (HD : 0 < D) by (apply Z.pow_pos_nonneg; lia).
      assert (L <= s); [|lia].
      apply Z.div_le_lower_bound; [lia|].
      assert (L * D * 2 ^ 128 <= r * exp2_factor_prod n * 2 ^ 128)
        by (apply Z.mul_le_mono_nonneg_r; lia).
      assert (r * (exp2_factor_prod n * 2 ^ 128) <= r * (EXP2_FACTOR n * D))
        by (apply Z.mul_le_mono_nonneg_l; lia).
      assert (2 ^ 128 * L * D <= r * EXP2_FACTOR n * D) by nia.
      apply (Z.mul_le_mono_pos_r _ _ D HD). lia.
    + (* both bits clear *)
      assert (u / 2 ^ Z.of_nat n = 0) by (apply Z.div_small; lia).
      assert (v / 2 ^ Z.of_nat n = 0) by (apply Z.div_small; lia).
      apply IH; lia.
Qed.

(** No multiplication of the table loop overflows 256 bits. *)
Lemma exp2_loop_returns n x r :
  (n <= 64)%nat -> 0 <= r <= exp2_bound (64 - n) ->
  exp2_loop n x r = Returns (exp2_loop_pure n x r).
Proof.
  revert r. induction n as [|m IH]; intros r Hn Hr; [reflexivity|].
  set (k := (64 - S m)%nat) in Hr.
  pose proof (exp2_bound_ok k ltac:(lia)) as Hk.
  apply andb_true_iff in Hk as [Hk1 Hk2]. apply Z.leb_le in Hk1, Hk2.
  assert (Hkm : (63 - k)%nat = m) by lia. rewrite Hkm in Hk1.
  assert (HSk : (64 - m)%nat = S k) by lia.
  pose proof (EXP2_FACTOR_ge m ltac:(lia)) as HF.
  cbn [exp2_loop exp2_loop_pure]. unfold exp2_step, exp2_step_pure.
  destruct (Z.testbit x (Z.of_nat m)).
  - unfold Uint.mul.
    assert (Hm : r * EXP2_FACTOR m <= Uint.MAX).
    { apply Z.le_trans with (exp2_bound k * EXP2_FACTOR m); [|lia].
      apply Z.mul_le_mono_nonneg_r; lia. }
    apply Z.leb_le in Hm. rewrite Hm, rbind_returns. unfold Uint.shr.
    rewrite Z.shiftr_div_pow2 by lia. apply IH; [lia|]. rewrite HSk. split.
    + apply Z.div_pos; nia.
    + cbn [exp2_bound]. rewrite Hkm, Z.shiftr_div_pow2 by lia. apply Z.div_le_mono; [lia|].
      apply Z.mul_le_mono_nonneg_r; lia.
  - rewrite rbind_returns. apply IH; [lia|]. rewrite HSk. lia.
Qed.

Lemma exp2_acc_bounds x :
  2 ^ 127 <= exp2_loop_pure 64 x (2 ^ 127) < 2 ^ 128.
Proof.
  split.
  - apply exp2_loop_pure_ge; lia.
  - pose proof (exp2_loop_pure_upper 64 x (2 ^ 127) ltac:(lia) ltac:(lia)) as H.
    pose proof exp2_top_ok as T.
    change (128 * Z.of_nat 64) with (128 * 64) in H.
    assert (0 < 2 ^ (128 * 64)) by (apply Z.pow_pos_nonneg; lia). nia.
Qed.

(** [exp2] in closed form: the assertion, the underflow to [0], and the
    accumulator shifted by [63 - (x >> 64)]. *)
Lemma exp2_spec x :
  exp2 x =
    if x <? 2 ^ 70 then
      if x <? - 2 ^ 70 then Returns 0
      else Returns (exp2_loop_pure 64 x (2 ^ 127) / 2 ^ (63 - x / 2 ^ 64))
    else Panics.
Proof.
  unfold exp2. change 0x400000000000000000 with (2 ^ 70).
  change (- 0x400000000000000000) with (- 2 ^ 70).
  destruct (Z.ltb_spec x (2 ^ 70)) as [Hx|Hx]; [|reflexivity].
  cbn [rassert rbind].
  destruct (Z.ltb_spec x (- 2 ^ 70)) as [Hy|Hy]; [reflexivity|].
  rewrite Z.shiftl_1_l, exp2_fold.
  rewrite exp2_loop_returns; [| lia | split; [lia | apply Z.le_refl]].
  rewrite rbind_returns. rewrite (Z.shiftr_div_pow2 x 64) by lia.
  assert (Hq1 : -64 <= x / 2 ^ 64).
  { apply Z.div_le_lower_bound; lia. }
  assert (Hq2 : x / 2 ^ 64 <= 63).
  { assert (x / 2 ^ 64 < 64) by (apply Z.div_lt_upper_bound; lia). lia. }
  rewrite (Z.mod_small (63 - x / 2 ^ 64)) by lia.
  unfold Uint.shr. rewrite Z.shiftr_div_pow2 by lia.
  pose proof (exp2_acc_bounds x) as [HA HB].
  set (R := exp2_loop_pure 64 x (2 ^ 127)) in *.
  assert (Hs : 1 <= 2 ^ (63 - x / 2 ^ 64)).
  { assert (0 < 2 ^ (63 - x / 2 ^ 64)) by (apply Z.pow_pos_nonneg; lia). lia. }
  assert (R / 2 ^ (63 - x / 2 ^ 64) <= R)
    by (apply Z.div_le_upper_bound; nia).
  assert (Hle : R / 2 ^ (63 - x / 2 ^ 64) <= 2 ^ 128 - 1) by lia.
  apply Z.leb_le in Hle. now rewrite Hle.
Qed.

Lemma exp2_result_nonneg x v : exp2 x = Returns v -> 0 <= v.
Proof.
  rewrite exp2_spec. intros H.
  destruct (Z.ltb_spec x (2 ^ 70)); [|discriminate].
  destruct (Z.ltb_spec x (- 2 ^ 70)); apply Returns_inj in H as <-; [lia|].
  pose proof (exp2_acc_bounds x).
  assert (x / 2 ^ 64 < 64) by (apply Z.div_lt_upper_bound; lia).
  apply Z.div_pos; [lia|]. apply Z.pow_pos_nonneg; lia.
Qed.

Lemma exp2_frac x :
  exp2_loop_pure 64 x (2 ^ 127) = exp2_loop_pure 64 (x mod 2 ^ 64) (2 ^ 127).
Proof.
  apply exp2_loop_pure_bits. intros i Hi. symmetry.
  apply (testbit_mod_pow2 x 64 i Hi).
Qed.

(** C4 (amended). [exp2] aborts on its assertion exactly when
    [x >= 0x400000000000000000] (that is [2^70], not [2^74]), and returns
    [0] when [x < -0x400000000000000000]; every other [x] returns normally. *)
Theorem exp2_domain (x : Z) :
  (exp2 x = Panics <-> 0x400000000000000000 <= x) /\
  (x < - 0x400000000000000000 -> exp2 x = Returns 0).
Proof.
  rewrite exp2_spec. change 0x400000000000000000 with (2 ^ 70).
  change (- 0x400000000000000000) with (- 2 ^ 70). split.
  - destruct (Z.ltb_spec x (2 ^ 70)).
    + destruct (x <? - 2 ^ 70); split; intros; try discriminate; lia.
    + split; auto.
  - intros H. destruct (Z.ltb_spec x (2 ^ 70)); [|lia].
    destruct (Z.ltb_spec x (- 2 ^ 70)); [reflexivity|lia].
Qed.

Lemma exp2_domain_witness :
  exp2 (2 ^ 70 - 1) <> Panics /\ exp2 (- 2 ^ 70 - 1) = Returns 0.
Proof.
  split.
  - intros H. apply (proj1 (exp2_domain (2 ^ 70 - 1))) in H.
    change 0x400000000000000000 with (2 ^ 70) in H. lia.
  - apply (proj2 (exp2_domain (- 2 ^ 70 - 1))).
    change (- 0x400000000000000000) with (- 2 ^ 70). lia.
Defined.

(** C4 counterexample. [x = 2^70] lies strictly between [-2^74] and
    [2^74], yet [exp2] aborts on it. *)
Lemma exp2_aborts_below_2pow74 :
  - 2 ^ 74 < 2 ^ 70 < 2 ^ 74 /\ exp2 (2 ^ 70) = Panics.
Proof. split; [lia | vm_compute; reflexivity]. Qed.

(** C8. [exp2] is monotonically increasing on its valid domain: whenever
    both calls return, [a < b] gives [exp2 a <= exp2 b]. *)
Theorem exp2_monotone (a b va vb : Z) :
  a < b -> exp2 a = Returns va -> exp2 b = Returns vb -> va <= vb.
Proof.
  intros Hab Ha Hb.
  pose proof (exp2_result_nonneg b vb Hb) as Hvb.
  rewrite exp2_spec in Ha, Hb.
  destruct (Z.ltb_spec b (2 ^ 70)) as [Hb70|]; [|discriminate].
  destruct (Z.ltb_spec a (2 ^ 70)) as [Ha70|]; [|lia].
  destruct (Z.ltb_spec a (- 2 ^ 70)) as [|Ha'].
  { apply Returns_inj in Ha as <-. lia. }
  destruct (Z.ltb_spec b (- 2 ^ 70)) as [|Hb']; [lia|].
  apply Returns_inj in Ha as Ea, Hb as Eb.
  pose proof (exp2_acc_bounds a) as [Ra1 Ra2].
  pose proof (exp2_acc_bounds b) as [Rb1 Rb2].
  set (Ra := exp2_loop_pure 64 a (2 ^ 127)) in *.
  set (Rb := exp2_loop_pure 64 b (2 ^ 127)) in *.
  assert (P64 : 0 < 2 ^ 64) by lia.
  assert (Hia : -64 <= a / 2 ^ 64 <= 63).
  { split; [apply Z.div_le_lower_bound; lia|].
    assert (a / 2 ^ 64 < 64) by (apply Z.div_lt_upper_bound; lia). lia. }
  assert (Hib : -64 <= b / 2 ^ 64 <= 63).
  { split; [apply Z.div_le_lower_bound; lia|].
    assert (b / 2 ^ 64 < 64) by (apply Z.div_lt_upper_bound; lia). lia. }
  assert (Hiab : a / 2 ^ 64 <= b / 2 ^ 64) by (apply Z.div_le_mono; lia).
  destruct (Z.eq_dec (a / 2 ^ 64) (b / 2 ^ 64)) as [Heq|Hne].
  - (* same integer part: compare the fractional bits *)
    rewrite Heq in Ea. rewrite <- Ea, <- Eb. apply Z.div_le_mono; [apply Z.pow_pos_nonneg; lia|].
    unfold Ra, Rb. rewrite (exp2_frac a), (exp2_frac b).
    pose proof (Z.div_mod a (2 ^ 64) ltac:(lia)).
    pose proof (Z.div_mod b (2 ^ 64) ltac:(lia)).
    pose proof (Z.mod_pos_bound a (2 ^ 64) P64).
    pose proof (Z.mod_pos_bound b (2 ^ 64) P64).
    apply exp2_loop_pure_mono; [lia | lia | lia |].
    change (2 ^ Z.of_nat 64) with (2 ^ 64). lia.
  - (* a larger integer part doubles past any fractional part *)
    set (sa := 63 - a / 2 ^ 64) in *. set (sb := 63 - b / 2 ^ 64) in *.
    assert (Hsa : 0 < 2 ^ sa) by (apply Z.pow_pos_nonneg; lia).
    assert (Hsb : 0 < 2 ^ sb) by (apply Z.pow_pos_nonneg; lia).
    assert (va < 2 ^ (128 - sa)).
    { subst va. apply Z.div_lt_upper_bound; [lia|].
      rewrite <- Z.pow_add_r by lia. replace (sa + (128 - sa)) with 128 by lia. lia. }
    assert (2 ^ (127 - sb) <= vb).
    { subst vb. apply Z.div_le_lower_bound; [lia|].
      rewrite <- Z.pow_add_r by lia. replace (sb + (127 - sb)) with 127 by lia. lia. }
    assert (2 ^ (128 - sa) <= 2 ^ (127 - sb)) by (apply Z.pow_le_mono_r; lia).
    lia.
Qed.

Lemma exp2_monotone_witness :
  exp2 0 = Returns (2 ^ 64) /\ exp2 (2 ^ 64) = Returns (2 ^ 65) /\ 2 ^ 64 <= 2 ^ 65.
Proof.
  assert (H0 : exp2 0 = Returns (2 ^ 64)) by (vm_compute; reflexivity).
  assert (H1 : exp2 (2 ^ 64) = Returns (2 ^ 65)) by (vm_compute; reflexivity).
  split; [exact H0|]. split; [exact H1|].
  exact (exp2_monotone 0 (2 ^ 64) (2 ^ 64) (2 ^ 65) ltac:(lia) H0 H1).
Defined.

(** ** to_sqrt_ratio: the mask loop *)

Lemma enum_map : enumerate MASKS = map (fun n => (Z.of_nat n, MASK n)) (seq 0 27).
Proof. vm_compute. reflexivity. Qed.

Lemma tick_consts_ok :
  forallb (fun w => (0 <? MASK w) && (MASK w <? 2 ^ 128) &&
    (2 ^ 22 * MASK w <=? (2 ^ 22 - 1) * mask_norm w)) (seq 0 27) = true.
Proof. vm_compute. reflexivity. Qed.

Lemma tick_norm_max_ok : 2 ^ 22 * 28 <= tick_norm 27 MAX_TICK.
Proof. vm_compute. discriminate. Qed.

Lemma MASK_bounds w : (w < 27)%nat -> 0 < MASK w < 2 ^ 128.
Proof.
  intros Hw. pose proof (forallb_seq _ _ _ tick_consts_ok w ltac:(lia)) as H.
  apply andb_true_iff in H as [H _]. apply andb_true_iff in H as [H1 H2].
  apply Z.ltb_lt in H1, H2. lia.
Qed.

Lemma mask_norm_nonneg n : (n <= 27)%nat -> 0 <= mask_norm n.
Proof.
  induction n as [|m IH]; intros Hn; cbn [mask_norm]; [lia|].
  apply Z.shiftr_nonneg. pose proof (MASK_bounds m ltac:(lia)).
  pose proof (IH ltac:(lia)). nia.
Qed.

Lemma mask_norm_spec n :
  (n <= 27)%nat -> mask_norm n * 2 ^ (128 * Z.of_nat n) <= mask_prod n * 2 ^ 128.
Proof.
  induction n as [|m IH]; intros Hn.
  - cbn [mask_prod mask_norm]. rewrite Z.mul_0_r, Z.pow_0_r. lia.
  - cbn [mask_prod mask_norm].
    pose proof (MASK_bounds m ltac:(lia)) as HM. specialize (IH ltac:(lia)).
    rewrite Nat2Z.inj_succ, Z.mul_succ_r, Z.pow_add_r by lia.
    assert (HE : 0 < 2 ^ (128 * Z.of_nat m)) by (apply Z.pow_pos_nonneg; lia).
    pose proof (floor_shiftr (mask_norm m * MASK m)) as HC.
    assert (A1 : Z.shiftr (mask_norm m * MASK m) 128 * 2 ^ 128 * 2 ^ (128 * Z.of_nat m) <=
                 mask_norm m * MASK m * 2 ^ (128 * Z.of_nat m))
      by (apply Z.mul_le_mono_nonneg_r; lia).
    assert (A2 : mask_norm m * 2 ^ (128 * Z.of_nat m) * MASK m <=
                 mask_prod m * 2 ^ 128 * MASK m)
      by (apply Z.mul_le_mono_nonneg_r; lia).
    lia.
Qed.

Lemma MASK_ratio w : (w < 27)%nat ->
  2 ^ 22 * 2 ^ (128 * Z.of_nat w) * MASK w <= (2 ^ 22 - 1) * 2 ^ 128 * mask_prod w.
Proof.
  intros Hw. pose proof (forallb_seq _ _ _ tick_consts_ok w ltac:(lia)) as H.
  apply andb_true_iff in H as [_ H]. apply Z.leb_le in H.
  pose proof (mask_norm_spec w ltac:(lia)) as HS.
  assert (HE : 0 <= 2 ^ (128 * Z.of_nat w)) by (apply Z.pow_nonneg; lia).
  assert (2 ^ 22 * MASK w * 2 ^ (128 * Z.of_nat w) <=
          (2 ^ 22 - 1) * mask_norm w * 2 ^ (128 * Z.of_nat w))
    by (apply Z.mul_le_mono_nonneg_r; lia).
  lia.
Qed.

Lemma tick_norm_spec n t :
  (n <= 27)%nat -> tick_norm n t * 2 ^ (128 * Z.of_nat n) <= tick_exact n t * 2 ^ 128.
Proof.
  induction n as [|m IH]; intros Hn.
  - cbn [tick_exact tick_norm]. rewrite Z.mul_0_r, Z.pow_0_r. lia.
  - cbn [tick_exact tick_norm].
    set (f := if Z.testbit t (Z.of_nat m) then MASK m else 2 ^ 128).
    assert (Hf : 0 <= f)
      by (subst f; destruct (Z.testbit _ _); [pose proof (MASK_bounds m ltac:(lia))|]; lia).
    specialize (IH ltac:(lia)).
    rewrite Nat2Z.inj_succ, Z.mul_succ_r, Z.pow_add_r by lia.
    assert (HE : 0 < 2 ^ (128 * Z.of_nat m)) by (apply Z.pow_pos_nonneg; lia).
    pose proof (floor_shiftr (tick_norm m t * f)) as HC.
    assert (A1 : Z.shiftr (tick_norm m t * f) 128 * 2 ^ 128 * 2 ^ (128 * Z.of_nat m) <=
                 tick_norm m t * f * 2 ^ (128 * Z.of_nat m))
      by (apply Z.mul_le_mono_nonneg_r; lia).
    assert (A2 : tick_norm m t * 2 ^ (128 * Z.of_nat m) * f <= tick_exact m t * 2 ^ 128 * f)
      by (apply Z.mul_le_mono_nonneg_r; lia).
    lia.
Qed.

Lemma tick_max_ok : 2 ^ 22 * 28 * 2 ^ (128 * 27) <= 2 ^ 128 * tick_exact 27 MAX_TICK.
Proof.
  pose proof (tick_norm_spec 27 MAX_TICK ltac:(lia)) as H. pose proof tick_norm_max_ok as T.
  change (128 * Z.of_nat 27) with (128 * 27) in H.
  assert (HD : 0 < 2 ^ (128 * 27)) by (apply Z.pow_pos_nonneg; lia).
  revert H HD. generalize (2 ^ (128 * 27)) as D. intros D H HD.
  assert (2 ^ 22 * 28 * D <= tick_norm 27 MAX_TICK * D) by (apply Z.mul_le_mono_nonneg_r; lia).
  lia.
Qed.

Lemma tick_step_panics t l : fold_left (tick_step t) l Panics = Panics.
Proof. induction l as [|[i m] l IH]; simpl; auto. Qed.

Lemma tick_fold_k t k :
  fold_left (tick_step t) (map (fun n => (Z.of_nat n, MASK n)) (seq 0 k)) (Returns ONE_X128)
  = tick_loop k t.
Proof.
  induction k as [|k IH]; [reflexivity|].
  rewrite seq_S, Nat.add_0_l, map_app, fold_left_app, IH. cbn [map fold_left tick_loop].
  destruct (tick_loop k t) as [r|]; [|reflexivity].
  cbn [tick_step]. rewrite rbind_returns, rbind_returns. unfold tick_step_n.
  rewrite Z.shiftl_1_l, land_pow2_eqb by lia.
  destruct (Z.testbit t (Z.of_nat k)); reflexivity.
Qed.

Lemma tick_fold t :
  fold_left (tick_step t) (enumerate MASKS) (Returns ONE_X128) = tick_loop 27 t.
Proof. rewrite enum_map. apply tick_fold_k. Qed.

(** The ratio never grows, so no product overflows. *)
Lemma tick_loop_returns n t :
  (n <= 27)%nat ->
  tick_loop n t = Returns (tick_loop_pure n t) /\ 0 <= tick_loop_pure n t <= 2 ^ 128.
Proof.
  induction n as [|n IH]; intros Hn.
  - split; [reflexivity|]. unfold tick_loop_pure, ONE_X128, U256. lia.
  - destruct (IH ltac:(lia)) as [E [B1 B2]].
    pose proof (MASK_bounds n ltac:(lia)) as [M1 M2].
    cbn [tick_loop tick_loop_pure]. rewrite E, rbind_returns.
    unfold tick_step_n, tick_step_pure.
    destruct (Z.testbit t (Z.of_nat n)).
    + unfold Uint.mul.
      assert (Hm : tick_loop_pure n t * MASK n <= Uint.MAX).
      { unfold Uint.MAX. assert (tick_loop_pure n t * MASK n < 2 ^ 128 * 2 ^ 128) by nia.
        lia. }
      apply Z.leb_le in Hm. rewrite Hm, rbind_returns. unfold Uint.shr.
      rewrite Z.shiftr_div_pow2 by lia. split; [reflexivity|]. split.
      * apply Z.div_pos; nia.
      * apply Z.div_le_upper_bound; nia.
    + split; [reflexivity|lia].
Qed.

Lemma tick_exact_pos n t : (n <= 27)%nat -> 0 < tick_exact n t.
Proof.
  induction n as [|n IH]; intros Hn; simpl; [lia|].
  pose proof (MASK_bounds n ltac:(lia)). pose proof (IH ltac:(lia)).
  destruct (Z.testbit t (Z.of_nat n)); nia.
Qed.

Lemma tick_exact_le n t : (n <= 27)%nat -> tick_exact n t <= 2 ^ (128 * Z.of_nat n).
Proof.
  induction n as [|n IH]; intros Hn; simpl tick_exact; [simpl; lia|].
  pose proof (MASK_bounds n ltac:(lia)). pose proof (IH ltac:(lia)).
  pose proof (tick_exact_pos n t ltac:(lia)).
  replace (128 * Z.of_nat (S n)) with (128 * Z.of_nat n + 128) by lia.
  rewrite Z.pow_add_r by lia.
  destruct (Z.testbit t (Z.of_nat n)); apply Z.mul_le_mono_nonneg; lia.
Qed.

Lemma mask_prod_pos n : (n <= 27)%nat -> 0 < mask_prod n.
Proof.
  induction n as [|n IH]; intros Hn; simpl; [lia|].
  pose proof (MASK_bounds n ltac:(lia)). pose proof (IH ltac:(lia)). nia.
Qed.

Lemma tick_exact_ge n t : (n <= 27)%nat -> mask_prod n <= tick_exact n t.
Proof.
  induction n as [|n IH]; intros Hn; simpl; [lia|].
  pose proof (MASK_bounds n ltac:(lia)). pose proof (IH ltac:(lia)).
  pose proof (mask_prod_pos n ltac:(lia)).
  destruct (Z.testbit t (Z.of_nat n)); apply Z.mul_le_mono_nonneg; lia.
Qed.

Lemma tick_exact_bits n x y :
  (forall i, (i < n)%nat -> Z.testbit x (Z.of_nat i) = Z.testbit y (Z.of_nat i)) ->
  tick_exact n x = tick_exact n y.
Proof.
  induction n as [|n IH]; intros H; simpl; [reflexivity|].
  rewrite (H n ltac:(lia)), IH; [reflexivity|]. intros i Hi. apply H. lia.
Qed.

(** Truncation error of the mask loop: after [n] bits the ratio is below the
    exact product and at most [n] below it. *)
Lemma tick_loop_error n t :
  (n <= 27)%nat ->
  tick_loop_pure n t * 2 ^ (128 * Z.of_nat n) <= 2 ^ 128 * tick_exact n t /\
  2 ^ 128 * tick_exact n t <= (tick_loop_pure n t + Z.of_nat n) * 2 ^ (128 * Z.of_nat n).
Proof.
  induction n as [|n IH]; intros Hn.
  - simpl. unfold ONE_X128, U256. lia.
  - destruct (IH ltac:(lia)) as [I1 I2].
    destruct (tick_loop_returns n t ltac:(lia)) as [_ [B1 B2]].
    pose proof (MASK_bounds n ltac:(lia)) as [M1 M2].
    pose proof (tick_exact_pos n t ltac:(lia)) as Ep.
    cbn [tick_loop_pure tick_exact]. unfold tick_step_pure.
    replace (128 * Z.of_nat (S n)) with (128 * Z.of_nat n + 128) by lia.
    rewrite Z.pow_add_r by lia. rewrite Nat2Z.inj_succ.
    set (r := tick_loop_pure n t) in *. set (e := tick_exact n t) in *.
    set (D := 2 ^ (128 * Z.of_nat n)) in *.
    assert (HD : 0 < D) by (apply Z.pow_pos_nonneg; lia).
    set (K := 2 ^ 128) in *. assert (HK : 0 < K) by (unfold K; lia).
    set (m := MASK n) in *.
    destruct (Z.testbit t (Z.of_nat n)).
    + pose proof (Z.div_mod (r * m) K ltac:(lia)) as Hdm.
      pose proof (Z.mod_pos_bound (r * m) K HK) as Hmb.
      set (r' := r * m / K) in *.
      assert (A1 : r' * K <= r * m) by lia.
      assert (A2 : r * m < (r' + 1) * K) by lia.
      split.
      * assert (r' * K * D <= r * m * D) by (apply Z.mul_le_mono_nonneg_r; lia).
        assert (m * (r * D) <= m * (K * e)) by (apply Z.mul_le_mono_nonneg_l; lia).
        nia.
      * assert (m * (K * e) <= m * ((r + Z.of_nat n) * D))
          by (apply Z.mul_le_mono_nonneg_l; lia).
        assert (Z.of_nat n * m * D <= Z.of_nat n * K * D)
          by (apply Z.mul_le_mono_nonneg_r; [lia|]; apply Z.mul_le_mono_nonneg_l; lia).
        assert (r * m * D <= (r' + 1) * K * D) by (apply Z.mul_le_mono_nonneg_r; lia).
        nia.
    + split.
      * assert (r * D * K <= K * e * K) by (apply Z.mul_le_mono_nonneg_r; lia). nia.
      * assert (K * e * K <= (r + Z.of_nat n) * D * K) by (apply Z.mul_le_mono_nonneg_r; lia).
        nia.
Qed.

(** A larger tick magnitude has an exact product smaller by a factor of at
    least [1 - 2^-22]: one set bit outweighs all lower bits together. *)
Lemma tick_exact_ratio n u v :
  (n <= 27)%nat -> 0 <= u < v -> v < 2 ^ Z.of_nat n ->
  2 ^ 22 * tick_exact n v <= (2 ^ 22 - 1) * tick_exact n u.
Proof.
  revert u v. induction n as [|n IH]; intros u v Hn Huv Hv.
  - simpl in Hv. lia.
  - assert (HP : 0 < 2 ^ Z.of_nat n) by (apply Z.pow_pos_nonneg; lia).
    assert (H2 : 2 ^ Z.of_nat (S n) = 2 ^ Z.of_nat n * 2)
      by (rewrite Nat2Z.inj_succ, Z.pow_succ_r by lia; lia).
    cbn [tick_exact].
    rewrite (tick_exact_bits n u (u mod 2 ^ Z.of_nat n))
      by (intros; symmetry; now apply testbit_mod_pow2).
    rewrite (tick_exact_bits n v (v mod 2 ^ Z.of_nat n))
      by (intros; symmetry; now apply testbit_mod_pow2).
    assert (Hu := testbit_top u n ltac:(rewrite Z.pow_add_r; lia)).
    assert (Hv' := testbit_top v n ltac:(rewrite Z.pow_add_r; lia)).
    pose proof (Z.mod_pos_bound u _ HP). pose proof (Z.mod_pos_bound v _ HP).
    pose proof (Z.div_mod u (2 ^ Z.of_nat n) ltac:(lia)).
    pose proof (Z.div_mod v (2 ^ Z.of_nat n) ltac:(lia)).
    pose proof (MASK_bounds n ltac:(lia)) as [M1 M2].
    pose proof (tick_exact_pos n (u mod 2 ^ Z.of_nat n) ltac:(lia)) as Pu.
    pose proof (tick_exact_pos n (v mod 2 ^ Z.of_nat n) ltac:(lia)) as Pv.
    rewrite Hu, Hv'.
    destruct (Z.leb_spec (2 ^ Z.of_nat n) u), (Z.leb_spec (2 ^ Z.of_nat n) v).
    + assert (u / 2 ^ Z.of_nat n = 1).
      { assert (1 <= u / 2 ^ Z.of_nat n) by (apply Z.div_le_lower_bound; lia).
        assert (u / 2 ^ Z.of_nat n < 2) by (apply Z.div_lt_upper_bound; lia). lia. }
      assert (v / 2 ^ Z.of_nat n = 1).
      { assert (1 <= v / 2 ^ Z.of_nat n) by (apply Z.div_le_lower_bound; lia).
        assert (v / 2 ^ Z.of_nat n < 2) by (apply Z.div_lt_upper_bound; lia). lia. }
      assert (IH' := IH (u mod 2 ^ Z.of_nat n) (v mod 2 ^ Z.of_nat n) ltac:(lia) ltac:(lia) ltac:(lia)).
      assert (2 ^ 22 * tick_exact n (v mod 2 ^ Z.of_nat n) * MASK n <=
              (2 ^ 22 - 1) * tick_exact n (u mod 2 ^ Z.of_nat n) * MASK n)
        by (apply Z.mul_le_mono_nonneg_r; lia).
      lia.
    + lia.
    + pose proof (tick_exact_le n (v mod 2 ^ Z.of_nat n) ltac:(lia)) as Le.
      pose proof (tick_exact_ge n (u mod 2 ^ Z.of_nat n) ltac:(lia)) as Ge.
      pose proof (MASK_ratio n ltac:(lia)) as R.
      assert (2 ^ 22 * tick_exact n (v mod 2 ^ Z.of_nat n) * MASK n <=
              2 ^ 22 * 2 ^ (128 * Z.of_nat n) * MASK n)
        by (apply Z.mul_le_mono_nonneg_r; lia).
      assert ((2 ^ 22 - 1) * 2 ^ 128 * mask_prod n <=
              (2 ^ 22 - 1) * 2 ^ 128 * tick_exact n (u mod 2 ^ Z.of_nat n))
        by (apply Z.mul_le_mono_nonneg_l; lia).
      lia.
    + assert (u / 2 ^ Z.of_nat n = 0) by (apply Z.div_small; lia).
      assert (v / 2 ^ Z.of_nat n = 0) by (apply Z.div_small; lia).
      assert (IH' := IH (u mod 2 ^ Z.of_nat n) (v mod 2 ^ Z.of_nat n) ltac:(lia) ltac:(lia) ltac:(lia)).
      nia.
Qed.

Lemma MAX_TICK_lt : MAX_TICK < 2 ^ Z.of_nat 27.
Proof. reflexivity. Qed.

(** The loop itself is strictly decreasing in the tick magnitude. *)
Lemma tick_loop_strict u v :
  0 <= u < v -> v <= MAX_TICK -> tick_loop_pure 27 v < tick_loop_pure 27 u.
Proof.
  intros Huv Hv.
  pose proof MAX_TICK_lt as HM.
  destruct (tick_loop_error 27 u ltac:(lia)) as [_ Eu].
  destruct (tick_loop_error 27 v ltac:(lia)) as [Ev _].
  pose proof (tick_exact_ratio 27 u v ltac:(lia) ltac:(lia) ltac:(lia)) as Rat.
  pose proof tick_max_ok as Mx.
  assert (Hm : tick_exact 27 MAX_TICK <= tick_exact 27 u).
  { destruct (Z.eq_dec u MAX_TICK) as [->|Hne]; [lia|].
    pose proof (tick_exact_ratio 27 u MAX_TICK ltac:(lia) ltac:(unfold MAX_TICK in *; lia) HM).
    pose proof (tick_exact_pos 27 u ltac:(lia)). lia. }
  change (Z.of_nat 27) with 27 in *.
  set (D := 2 ^ (128 * 27)) in *. assert (HD : 0 < D) by (unfold D; lia).
  set (K := 2 ^ 128) in *.
  set (Ru := tick_loop_pure 27 u) in *. set (Rv := tick_loop_pure 27 v) in *.
  set (Xu := tick_exact 27 u) in *. set (Xv := tick_exact 27 v) in *.
  set (XM := tick_exact 27 MAX_TICK) in *.
  assert (K * XM <= K * Xu) by (apply Z.mul_le_mono_nonneg_l; unfold K; lia).
  assert (A : 2 ^ 22 * (Rv * D) <= 2 ^ 22 * (K * Xv)) by (apply Z.mul_le_mono_nonneg_l; lia).
  assert (B : K * (2 ^ 22 * Xv) <= K * ((2 ^ 22 - 1) * Xu)) by (apply Z.mul_le_mono_nonneg_l; unfold K; lia).
  assert (C : 2 ^ 22 * Rv * D <= 2 ^ 22 * (Ru - 1) * D) by nia.
  assert (E : Rv * D <= (Ru - 1) * D) by nia.
  apply (Z.mul_le_mono_pos_r _ _ D HD) in E. lia.
Qed.

Lemma tick_loop_pos n : 0 <= n <= MAX_TICK -> 0 < tick_loop_pure 27 n.
Proof.
  intros Hn. assert (Hm : 0 < tick_loop_pure 27 MAX_TICK) by (vm_compute; reflexivity).
  destruct (Z.eq_dec n MAX_TICK) as [->|]; [exact Hm|].
  pose proof (tick_loop_strict n MAX_TICK ltac:(lia) ltac:(lia)). lia.
Qed.

Lemma tick_loop_le n : tick_loop_pure 27 n <= 2 ^ 128.
Proof. apply (tick_loop_returns 27 n). lia. Qed.

(** [to_sqrt_ratio] in closed form on the valid range. *)
Lemma to_sqrt_ratio_spec tick :
  MIN_TICK <= tick <= MAX_TICK ->
  to_sqrt_ratio tick =
    Returns (Some (if 0 <? tick then Uint.MAX / tick_loop_pure 27 (Z.abs tick)
                   else tick_loop_pure 27 (Z.abs tick))).
Proof.
  intros H. unfold to_sqrt_ratio.
  destruct (Z.ltb_spec tick MIN_TICK); [lia|].
  destruct (Z.ltb_spec MAX_TICK tick); [lia|]. simpl orb. cbv iota.
  unfold i32_abs. destruct (Z.eqb_spec tick i32_min) as [E|_].
  { unfold i32_min, MIN_TICK in *. lia. }
  rewrite rbind_returns, tick_fold.
  rewrite (proj1 (tick_loop_returns 27 (Z.abs tick) ltac:(lia))), rbind_returns.
  destruct (Z.ltb_spec 0 tick); [|reflexivity].
  unfold Uint.div.
  pose proof (tick_loop_pos (Z.abs tick) ltac:(unfold MIN_TICK, MAX_TICK in *; lia)).
  destruct (Z.eqb_spec (tick_loop_pure 27 (Z.abs tick)) 0); [lia|reflexivity].
Qed.

(** C9. [to_sqrt_ratio] returns [None] exactly for ticks outside
    [[MIN_TICK, MAX_TICK]] (among them [MIN_TICK - 1], [MAX_TICK + 1] and
    [i32::MIN], rejected before [abs] is taken) and [Some] for every tick
    inside; it never panics. *)
Theorem to_sqrt_ratio_none_iff (tick : Z) :
  (to_sqrt_ratio tick = Returns None <-> tick < MIN_TICK \/ MAX_TICK < tick) /\
  (MIN_TICK <= tick <= MAX_TICK -> exists r, to_sqrt_ratio tick = Returns (Some r)).
Proof.
  assert (In : MIN_TICK <= tick <= MAX_TICK -> exists r, to_sqrt_ratio tick = Returns (Some r)).
  { intros H. rewrite (to_sqrt_ratio_spec tick H). eexists. reflexivity. }
  split; [|exact In]. split.
  - intros H. destruct (Z.ltb_spec tick MIN_TICK); [now left|].
    destruct (Z.ltb_spec MAX_TICK tick); [now right|].
    destruct (In ltac:(lia)) as [r Hr]. congruence.
  - intros H. unfold to_sqrt_ratio.
    destruct H as [H|H].
    + apply Z.ltb_lt in H. now rewrite H.
    + apply Z.ltb_lt in H. now rewrite H, orb_true_r.
Qed.

(** C7. The named constants are the exact outputs of the algorithm at the
    ends of the tick range. *)
Theorem to_sqrt_ratio_bounds :
  to_sqrt_ratio MIN_TICK = Returns (Some MIN_SQRT_RATIO) /\
  to_sqrt_ratio MAX_TICK = Returns (Some MAX_SQRT_RATIO).
Proof. split; vm_compute; reflexivity. Qed.

(** C6. [to_sqrt_ratio] is strictly increasing over [[MIN_TICK, MAX_TICK]]. *)
Theorem to_sqrt_ratio_strict_mono (a b : Z) :
  MIN_TICK <= a -> a < b -> b <= MAX_TICK ->
  exists ra rb, to_sqrt_ratio a = Returns (Some ra) /\
                to_sqrt_ratio b = Returns (Some rb) /\ ra < rb.
Proof.
  intros Ha Hab Hb.
  rewrite (to_sqrt_ratio_spec a ltac:(lia)), (to_sqrt_ratio_spec b ltac:(lia)).
  do 2 eexists. split; [reflexivity|]. split; [reflexivity|].
  assert (HM : MAX_TICK = - MIN_TICK) by reflexivity.
  unfold Uint.MAX.
  destruct (Z.ltb_spec 0 a), (Z.ltb_spec 0 b); try lia.
  - (* 0 < a < b: the reciprocals keep the order strictly *)
    rewrite !Z.abs_eq by lia.
    pose proof (tick_loop_strict a b ltac:(lia) ltac:(lia)) as S.
    pose proof (tick_loop_pos b ltac:(lia)) as Pb.
    pose proof (tick_loop_le a) as La.
    set (Ra := tick_loop_pure 27 a) in *. set (Rb := tick_loop_pure 27 b) in *.
    set (q := (2 ^ 256 - 1) / Ra).
    assert (Hq : 2 ^ 128 - 1 <= q).
    { apply Z.div_le_lower_bound; [lia|]. nia. }
    assert (Hq2 : Ra * q <= 2 ^ 256 - 1) by (apply Z.mul_div_le; lia).
    assert (q + 1 <= (2 ^ 256 - 1) / Rb); [|lia].
    apply Z.div_le_lower_bound; [lia|]. nia.
  - (* a <= 0 < b *)
    pose proof (tick_loop_le (Z.abs a)).
    rewrite (Z.abs_eq b) by lia.
    pose proof (tick_loop_strict 0 b ltac:(lia) ltac:(lia)) as S.
    pose proof (tick_loop_pos b ltac:(lia)) as Pb.
    assert (HZ : tick_loop_pure 27 0 = 2 ^ 128) by reflexivity.
    assert (2 ^ 128 + 1 <= (2 ^ 256 - 1) / tick_loop_pure 27 b); [|lia].
    apply Z.div_le_lower_bound; [lia|]. nia.
  - (* a < b <= 0 *)
    rewrite !Z.abs_neq by lia.
    apply tick_loop_strict; unfold MIN_TICK, MAX_TICK in *; lia.
Qed.

Lemma to_sqrt_ratio_strict_mono_witness :
  exists ra rb, to_sqrt_ratio (-1) = Returns (Some ra) /\
                to_sqrt_ratio 1 = Returns (Some rb) /\ ra < rb.
Proof.
  apply (to_sqrt_ratio_strict_mono (-1) 1);
    [unfold MIN_TICK; lia | lia | unfold MAX_TICK; lia].
Defined.

(** ** TWAMM price evolution and the oracle pool quote *)
(** *** Facts on the 256-bit operations used by [calculate_next_sqrt_ratio]. *)

Lemma shl_bounds a n :
  0 <= a -> 0 <= n -> 0 <= Uint.shl a n <= a * 2 ^ n /\ Uint.shl a n < 2 ^ 256.
Proof.
  intros Ha Hn. unfold Uint.shl. rewrite Z.shiftl_mul_pow2 by lia.
  assert (0 < 2 ^ n) by (apply Z.pow_pos_nonneg; lia).
  pose proof (Z.mod_pos_bound (a * 2 ^ n) (2 ^ 256)) as HB.
  split; [split|]; [lia | apply Z.mod_le; lia | lia].
Qed.

Lemma shl_nonneg a n : 0 <= Uint.shl a n.
Proof.
  unfold Uint.shl. apply Z.mod_pos_bound. lia.
Qed.

Lemma sqrt_lt_pow a k : 0 <= a < 2 ^ (2 * k) -> 0 <= k -> Z.sqrt a < 2 ^ k.
Proof.
  intros [Ha Hb] Hk. apply Z.sqrt_lt_square; [lia | apply Z.pow_nonneg; lia |].
  rewrite ?Z.pow_2_r, <- Z.pow_add_r by lia. now replace (k + k) with (2 * k) by lia.
Qed.

Lemma compute_sqrt_sale_ratio_nonneg sr0 sr1 s :
  compute_sqrt_sale_ratio sr0 sr1 = Returns s -> 0 <= s.
Proof.
  unfold compute_sqrt_sale_ratio, Uint.div. destruct (sr0 =? 0); [discriminate|].
  cbn [rbind].
  destruct (_ <=? _); [|destruct (_ <=? _)]; intros H; apply Returns_inj in H as <-;
    try apply shl_nonneg. apply Z.sqrt_nonneg.
Qed.

Lemma compute_sqrt_sale_ratio_bounds sr0 sr1 :
  0 < sr0 ->
  exists s, compute_sqrt_sale_ratio sr0 sr1 = Returns s /\ 0 <= s < 2 ^ 184.
Proof.
  intros H0. unfold compute_sqrt_sale_ratio, Uint.div.
  replace (sr0 =? 0) with false by lia. cbn [rbind].
  set (r := Uint.shl sr1 128 / sr0).
  assert (Hr : 0 <= r < 2 ^ 256).
  { assert (HX : 0 <= Uint.shl sr1 128 < 2 ^ 256)
      by (unfold Uint.shl; apply Z.mod_pos_bound; lia).
    subst r. set (X := Uint.shl sr1 128) in *.
    split; [apply Z.div_pos; lia|].
    apply (Z.le_lt_trans _ X); [apply Z.div_le_upper_bound; nia | lia]. }
  assert (HU3 : U256 [0; 0; 0; 1] = 2 ^ 192) by reflexivity.
  assert (HU2 : U256 [0; 0; 1; 0] = 2 ^ 128) by reflexivity.
  rewrite HU3, HU2.
  destruct (Z.leb_spec (2 ^ 192) r); [|destruct (Z.leb_spec (2 ^ 128) r)];
    eexists; split; try reflexivity.
  - pose proof (shl_bounds r 16 ltac:(lia) ltac:(lia)) as [_ Hs].
    pose proof (shl_nonneg r 16).
    assert (Z.sqrt (Uint.shl r 16) < 2 ^ 128)
      by (apply sqrt_lt_pow; [change (2 * 128) with 256|]; lia).
    pose proof (Z.sqrt_nonneg (Uint.shl r 16)).
    pose proof (shl_bounds (Uint.integer_sqrt (Uint.shl r 16)) 56 ltac:(assumption) ltac:(lia)).
    unfold Uint.integer_sqrt in *. lia.
  - assert (Uint.shl r 64 < 2 ^ 256).
    { pose proof (shl_bounds r 64 ltac:(lia) ltac:(lia)). lia. }
    pose proof (shl_nonneg r 64).
    assert (Z.sqrt (Uint.shl r 64) < 2 ^ 128)
      by (apply sqrt_lt_pow; [change (2 * 128) with 256|]; lia).
    pose proof (Z.sqrt_nonneg (Uint.shl r 64)).
    pose proof (shl_bounds (Uint.integer_sqrt (Uint.shl r 64)) 32 ltac:(assumption) ltac:(lia)).
    unfold Uint.integer_sqrt in *. lia.
  - pose proof (shl_bounds r 128 ltac:(lia) ltac:(lia)) as [_ Hs].
    pose proof (shl_nonneg r 128).
    assert (Z.sqrt (Uint.shl r 128) < 2 ^ 128)
      by (apply sqrt_lt_pow; [change (2 * 128) with 256|]; lia).
    pose proof (Z.sqrt_nonneg (Uint.shl r 128)).
    unfold Uint.integer_sqrt. lia.
Qed.

(** [compute_c a b] is [|b - a| * 2^128 / (a + b)] with the flag [b < a]. *)
Lemma compute_c_spec a b :
  0 <= a -> 0 <= b -> 0 < a + b <= Uint.MAX ->
  compute_c a b = Returns (Z.abs (b - a) * 2 ^ 128 / (a + b), b <? a) /\
  0 <= Z.abs (b - a) * 2 ^ 128 / (a + b) <= 2 ^ 128.
Proof.
  intros Ha Hb Hs.
  assert (Hq : 0 <= Z.abs (b - a) * 2 ^ 128 / (a + b) <= 2 ^ 128).
  { split; [apply Z.div_pos; lia|]. apply Z.div_le_upper_bound; [lia|].
    assert (Z.abs (b - a) <= a + b) by lia. nia. }
  split; [|exact Hq].
  assert (HU2 : U256 [0; 0; 1; 0] = 2 ^ 128) by reflexivity.
  unfold compute_c, Uint.sub, Uint.add, muldiv. rewrite HU2.
  replace (b + a <=? Uint.MAX) with true by (symmetry; apply Z.leb_le; lia).
  replace (b + a =? 0) with false by lia.
  unfold Uint.MAX in *.
  destruct (Z.leb_spec a b).
  - replace (a <=? b) with true by lia. cbn [rbind andb].
    replace ((b - a) * 2 ^ 128 / (b + a) <=? 2 ^ 256 - 1) with true
      by (symmetry; apply Z.leb_le;
          replace (b - a) with (Z.abs (b - a)) by lia; rewrite Z.add_comm; lia).
    replace (b + a =? 0) with false by lia. cbn [rbind unwrap].
    replace (b <? a) with false by lia.
    now replace (Z.abs (b - a)) with (b - a) by lia; rewrite (Z.add_comm b a).
  - replace (b <=? a) with true by lia. cbn [rbind andb].
    replace ((a - b) * 2 ^ 128 / (b + a) <=? 2 ^ 256 - 1) with true
      by (symmetry; apply Z.leb_le;
          replace (a - b) with (Z.abs (b - a)) by lia; rewrite Z.add_comm; lia).
    replace (b + a =? 0) with false by lia. cbn [rbind unwrap].
    replace (b <? a) with true by lia.
    now replace (Z.abs (b - a)) with (a - b) by lia; rewrite (Z.add_comm b a).
Qed.

Lemma exp2_lt x v : exp2 x = Returns v -> 0 <= v < 2 ^ 128.
Proof.
  intros H. split; [eapply exp2_result_nonneg; eauto|].
  rewrite exp2_spec in H.
  destruct (Z.ltb_spec x (2 ^ 70)); [|discriminate].
  destruct (Z.ltb_spec x (- 2 ^ 70)); apply Returns_inj in H as <-; [lia|].
  pose proof (exp2_acc_bounds x) as [_ HB].
  assert (x / 2 ^ 64 < 64) by (apply Z.div_lt_upper_bound; lia).
  assert (0 < 2 ^ (63 - x / 2 ^ 64)) by (apply Z.pow_pos_nonneg; lia).
  apply (Z.le_lt_trans _ (exp2_loop_pure 64 x (2 ^ 127))); [|exact HB].
  apply Z.div_le_upper_bound; [lia|]. pose proof (exp2_acc_bounds x). nia.
Qed.

Lemma exp2_returns x : 0 <= x < 2 ^ 70 -> exists v, exp2 x = Returns v.
Proof.
  intros Hx. rewrite exp2_spec.
  replace (x <? 2 ^ 70) with true by lia. replace (x <? - 2 ^ 70) with false by lia.
  eexists; reflexivity.
Qed.

Lemma mul_ok a b : 0 <= a * b <= Uint.MAX -> Uint.mul a b = Returns (a * b).
Proof. intros H. unfold Uint.mul. now replace (a * b <=? Uint.MAX) with true by lia. Qed.

Lemma add_ok a b : a + b <= Uint.MAX -> Uint.add a b = Returns (a + b).
Proof. intros H. unfold Uint.add. now replace (a + b <=? Uint.MAX) with true by lia. Qed.

Lemma sub_ok a b : b <= a -> Uint.sub a b = Returns (a - b).
Proof. intros H. unfold Uint.sub. now replace (b <=? a) with true by lia. Qed.

Lemma div_ok a b : b <> 0 -> Uint.div a b = Returns (a / b).
Proof. intros H. unfold Uint.div. now replace (b =? 0) with false by lia. Qed.

Lemma compute_c_nonneg a b c n :
  0 <= a -> 0 <= b -> compute_c a b = Returns (c, n) -> 0 <= c.
Proof.
  intros Ha Hb. unfold compute_c.
  destruct (Z.leb_spec a b); rewrite sub_ok by lia; cbn [rbind];
    unfold Uint.add; (destruct (Z.leb_spec (b + a) Uint.MAX); [|discriminate]);
    cbn [rbind]; unfold muldiv; (destruct (Z.eqb_spec (b + a) 0); [discriminate|]);
    cbn [andb]; (destruct (_ <=? Uint.MAX); [|discriminate]); cbn [unwrap rbind];
    intros HR; apply Returns_inj in HR; inversion HR; subst;
    apply Z.div_pos; lia.
Qed.

Lemma muldiv_down_ge a b d q :
  0 <= a -> 0 < d <= b -> muldiv a b d false = Some q -> a <= q.
Proof.
  intros Ha Hd. unfold muldiv. replace (d =? 0) with false by lia. cbn [andb].
  destruct (_ <=? Uint.MAX); intros H; inversion H; subst.
  apply Z.div_le_lower_bound; nia.
Qed.

(** Splits a hypothesis [calculate_next_sqrt_ratio ... = Returns v] into
    the code's paths. *)
Ltac rust_paths H :=
  repeat match type of H with
  | rbind (Returns _) _ = _ => cbn [rbind] in H
  | rbind Panics _ = _ => discriminate H
  | rbind ?m _ = _ => let E := fresh "E" in destruct m eqn:E
  | (if ?b then _ else _) = _ => let E := fresh "E" in destruct b eqn:E
  | (let '(_, _) := ?p in _) = _ => destruct p
  end.

Ltac ltb_to_prop :=
  repeat match goal with
  | E : (_ <? _) = true |- _ => apply Z.ltb_lt in E
  | E : (_ <? _) = false |- _ => apply Z.ltb_ge in E
  end.

Lemma next_branch_down_ge s e c x :
  0 <= s -> 0 <= e -> 0 <= c -> next_branch s e c false = Returns x -> s <= x.
Proof.
  intros Hs He Hc. unfold next_branch, Uint.add.
  destruct (_ <=? Uint.MAX); [|discriminate]. cbn [rbind].
  intros H. apply Returns_inj in H as <-. unfold unwrap_or.
  destruct (muldiv _ _ _ _) eqn:Em; [|lia].
  destruct (Z.eq_dec (Uint.abs_diff e c) 0) as [Hz|Hz].
  - unfold muldiv in Em. rewrite Hz in Em. discriminate.
  - apply muldiv_down_ge in Em; unfold Uint.abs_diff in *; lia.
Qed.

(** In the code both arms of [if negative] compute [sqrt_sale_ratio * (e + c)
    / |e - c|]: below the equilibrium that quotient is never smaller than
    [sqrt_sale_ratio], and the final [min] returns [sqrt_sale_ratio]. *)
Lemma calculate_next_sqrt_ratio_below_is_sale_ratio sqrt_ratio liquidity sr0 sr1
    time_elapsed fee ssr v :
  0 <= sqrt_ratio ->
  compute_sqrt_sale_ratio sr0 sr1 = Returns ssr ->
  sqrt_ratio < ssr ->
  calculate_next_sqrt_ratio sqrt_ratio liquidity sr0 sr1 time_elapsed fee = Returns v ->
  v = ssr.
Proof.
  intros H0 Hs Hlt H. pose proof (compute_sqrt_sale_ratio_nonneg _ _ _ Hs) as Hn.
  unfold calculate_next_sqrt_ratio in H. rewrite Hs in H. cbn [rbind] in H.
  cbv zeta in H. rust_paths H; apply Returns_inj in H; ltb_to_prop; try lia.
  match goal with
  | Ec : compute_c _ _ = Returns _ |- _ =>
      pose proof (compute_c_nonneg _ _ _ _ Hn H0 Ec) as Hc
  end.
  match goal with
  | E : (if ?n then next_branch _ ?e _ _ else _) = _ |- _ =>
      assert (He : 0 <= e) by apply shl_nonneg;
      destruct n; apply next_branch_down_ge in E; lia
  end.
Qed.

(** Above the equilibrium the code overflows the 256 bits of
    [(sale_ratio << 16)] when the ratio reaches [2^240]: with
    [sale_rate_token0 = 1] and [sale_rate_token1 = 2^127] the ratio is
    [2^255] and the computed square root sale ratio is [0]. *)
Lemma compute_sqrt_sale_ratio_top_band_wraps :
  Uint.shl (2 ^ 127) 128 / 1 = 2 ^ 255 /\ compute_sqrt_sale_ratio 1 (2 ^ 127) = Returns 0.
Proof. split; vm_compute; reflexivity. Qed.

(** C3: whenever [calculate_next_sqrt_ratio] returns, its result does not
    pass [sqrt_sale_ratio]: at least [sqrt_sale_ratio] when the current
    price is above it, at most [sqrt_sale_ratio] when the current price is at
    or below it. *)
Theorem calculate_next_sqrt_ratio_clamp sqrt_ratio liquidity sale_rate_token0
    sale_rate_token1 time_elapsed fee sqrt_sale_ratio v :
  compute_sqrt_sale_ratio sale_rate_token0 sale_rate_token1 = Returns sqrt_sale_ratio ->
  calculate_next_sqrt_ratio sqrt_ratio liquidity sale_rate_token0 sale_rate_token1
    time_elapsed fee = Returns v ->
  (sqrt_sale_ratio < sqrt_ratio -> sqrt_sale_ratio <= v) /\
  (sqrt_ratio <= sqrt_sale_ratio -> v <= sqrt_sale_ratio).
Proof.
  intros Hs H. unfold calculate_next_sqrt_ratio in H. rewrite Hs in H.
  cbn [rbind] in H. cbv zeta in H.
  rust_paths H; apply Returns_inj in H as <-; ltb_to_prop; lia.
Qed.

Lemma calculate_next_sqrt_ratio_clamp_witness :
  compute_sqrt_sale_ratio (2 * 10 ^ 18 * 2 ^ 32) (10 ^ 18 * 2 ^ 32) =
    Returns 240615969168004511545033772477625056927 /\
  calculate_next_sqrt_ratio (2 ^ 128) (10 ^ 24) (2 * 10 ^ 18 * 2 ^ 32) (10 ^ 18 * 2 ^ 32) 1 0 =
    Returns 340282026639252118183347287047607050306 /\
  ((240615969168004511545033772477625056927 < 2 ^ 128 ->
    240615969168004511545033772477625056927 <= 340282026639252118183347287047607050306) /\
   (2 ^ 128 <= 240615969168004511545033772477625056927 ->
    340282026639252118183347287047607050306 <= 240615969168004511545033772477625056927)).
Proof.
  assert (Hs : compute_sqrt_sale_ratio (2 * 10 ^ 18 * 2 ^ 32) (10 ^ 18 * 2 ^ 32) =
                 Returns 240615969168004511545033772477625056927) by (vm_compute; reflexivity).
  assert (Hv : calculate_next_sqrt_ratio (2 ^ 128) (10 ^ 24) (2 * 10 ^ 18 * 2 ^ 32)
                 (10 ^ 18 * 2 ^ 32) 1 0 = Returns 340282026639252118183347287047607050306)
    by (vm_compute; reflexivity).
  split; [exact Hs | split; [exact Hv |]].
  exact (calculate_next_sqrt_ratio_clamp _ _ _ _ _ _ _ _ Hs Hv).
Defined.

(** C5: with [liquidity = 0] and [sale_rate_token0 > 0],
    [calculate_next_sqrt_ratio] returns the banded square root of
    [(sale_rate_token1 << 128) / sale_rate_token0], every shift being a
    256-bit [U256] shift ([Uint.shl]): [(r << 16).isqrt() << 56] when
    [r >= 2^192], [(r << 64).isqrt() << 32] when [2^128 <= r < 2^192],
    [(r << 128).isqrt()] otherwise. *)
Theorem calculate_next_sqrt_ratio_zero_liquidity sqrt_ratio sale_rate_token0
    sale_rate_token1 time_elapsed fee :
  0 < sale_rate_token0 ->
  calculate_next_sqrt_ratio sqrt_ratio 0 sale_rate_token0 sale_rate_token1 time_elapsed fee =
  Returns (let r := Uint.shl sale_rate_token1 128 / sale_rate_token0 in
           if 2 ^ 192 <=? r then Uint.shl (Z.sqrt (Uint.shl r 16)) 56
           else if 2 ^ 128 <=? r then Uint.shl (Z.sqrt (Uint.shl r 64)) 32
           else Z.sqrt (Uint.shl r 128)).
Proof.
  intros H0. unfold calculate_next_sqrt_ratio, compute_sqrt_sale_ratio.
  rewrite div_ok by lia. cbn [rbind]. cbv zeta.
  change (U256 [0; 0; 0; 1]) with (2 ^ 192). change (U256 [0; 0; 1; 0]) with (2 ^ 128).
  destruct (2 ^ 192 <=? _); [|destruct (2 ^ 128 <=? _)]; reflexivity.
Qed.

Lemma calculate_next_sqrt_ratio_zero_liquidity_witness :
  calculate_next_sqrt_ratio (2 ^ 128) 0 (10 ^ 18 * 2 ^ 32) (2 * 10 ^ 18 * 2 ^ 32) 1 0 =
  Returns 481231938336009023090067544951314448384.
Proof.
  rewrite (calculate_next_sqrt_ratio_zero_liquidity (2 ^ 128) (10 ^ 18 * 2 ^ 32)
             (2 * 10 ^ 18 * 2 ^ 32) 1 0) by lia.
  vm_compute. reflexivity.
Defined.

(** C1 (counterexamples): [calculate_next_sqrt_ratio] panics when
    [sale_rate_token0 = 0] (division by zero in [compute_sqrt_sale_ratio]),
    in particular when both sale rates are [0], and when
    [sqrt_ratio = sqrt_sale_ratio = 0] with [liquidity > 0] ([unwrap] of the
    [muldiv] by [0] in [compute_c]). *)
Lemma calculate_next_sqrt_ratio_panics :
  calculate_next_sqrt_ratio (2 ^ 128) (10 ^ 18) 0 (10 ^ 18) 1 0 = Panics /\
  calculate_next_sqrt_ratio (2 ^ 128) (10 ^ 18) 0 0 1 0 = Panics /\
  calculate_next_sqrt_ratio 0 1 1 0 1 0 = Panics.
Proof. vm_compute. repeat split. Qed.

(** C1 (amended): with [sale_rate_token0 > 0], the sale rates and
    [liquidity] in [u128], [time_elapsed] in [u32], [fee] in [u64], and
    either [liquidity = 0] or [0 < sqrt_ratio <= MAX_SQRT_RATIO],
    [calculate_next_sqrt_ratio] returns without panicking. *)
Theorem calculate_next_sqrt_ratio_no_panic sqrt_ratio liquidity sale_rate_token0
    sale_rate_token1 time_elapsed fee :
  0 < sale_rate_token0 < 2 ^ 128 -> 0 <= sale_rate_token1 < 2 ^ 128 ->
  0 <= liquidity < 2 ^ 128 -> 0 <= time_elapsed < 2 ^ 32 -> 0 <= fee < 2 ^ 64 ->
  liquidity = 0 \/ 0 < sqrt_ratio <= MAX_SQRT_RATIO ->
  exists v, calculate_next_sqrt_ratio sqrt_ratio liquidity sale_rate_token0
              sale_rate_token1 time_elapsed fee = Returns v.
Proof.
  intros H0 H1 HL HT HF HR.
  destruct (compute_sqrt_sale_ratio_bounds sale_rate_token0 sale_rate_token1)
    as [ssr [Hs Hb]]; [lia|].
  unfold calculate_next_sqrt_ratio. rewrite Hs. cbn [rbind].
  destruct (Z.eqb_spec liquidity 0) as [|HL0]; [eauto|].
  destruct HR as [|HR]; [contradiction|].
  assert (HM : MAX_SQRT_RATIO < 2 ^ 192) by reflexivity.
  destruct (compute_c_spec ssr sqrt_ratio) as [Hc Hcb]; try (unfold Uint.MAX; lia).
  rewrite Hc. cbn [rbind].
  set (c := Z.abs (sqrt_ratio - ssr) * 2 ^ 128 / (ssr + sqrt_ratio)) in *.
  destruct (_ || _); [eauto|].
  unfold TWO_POW_64. change (U256 [0; 1; 0; 0]) with (2 ^ 64).
  change (U256 [12392656037; 0; 0; 0]) with 12392656037.
  rewrite mul_ok by (unfold Uint.MAX; nia). cbn [rbind].
  rewrite sub_ok by lia. cbn [rbind].
  assert (Hq : 0 <= Uint.integer_sqrt (sale_rate_token1 * sale_rate_token0) < 2 ^ 128).
  { unfold Uint.integer_sqrt. split; [apply Z.sqrt_nonneg|].
    apply sqrt_lt_pow; [change (2 * 128) with 256; nia | lia]. }
  rewrite mul_ok by (unfold Uint.MAX; nia). cbn [rbind].
  rewrite div_ok by lia. cbn [rbind].
  set (sale_rate := Uint.integer_sqrt (sale_rate_token1 * sale_rate_token0) *
                      (2 ^ 64 - fee) / 2 ^ 64).
  assert (Hsr : 0 <= sale_rate < 2 ^ 128).
  { subst sale_rate. split; [apply Z.div_pos; nia|].
    apply Z.div_lt_upper_bound; nia. }
  rewrite mul_ok by (unfold Uint.MAX; nia). cbn [rbind].
  rewrite mul_ok by (unfold Uint.MAX; nia). cbn [rbind].
  rewrite div_ok by lia. cbn [rbind].
  set (exponent := sale_rate * time_elapsed * 12392656037 / liquidity).
  assert (He0 : 0 <= exponent) by (apply Z.div_pos; nia).
  destruct (Z.leb_spec 0x400000000000000000 exponent); [eauto|].
  assert (Hlow : Uint.low_u128 exponent = exponent)
    by (unfold Uint.low_u128; apply Z.mod_small; lia).
  rewrite Hlow.
  destruct (exp2_returns exponent) as [ex Hex]; [lia|].
  pose proof (exp2_lt _ _ Hex) as Hexb.
  rewrite Hex. cbn [rbind].
  pose proof (shl_bounds ex 64 ltac:(lia) ltac:(lia)) as [He _].
  assert (Hn : forall r, exists x, next_branch ssr (Uint.shl ex 64) c r = Returns x).
  { intros r. unfold next_branch. rewrite add_ok by (unfold Uint.MAX; nia).
    cbn [rbind]. eauto. }
  destruct (Hn (ssr <? sqrt_ratio)) as [x Hx].
  destruct (sqrt_ratio <? ssr); rewrite Hx; cbn [rbind];
    destruct (ssr <? sqrt_ratio); eauto.
Qed.

Lemma calculate_next_sqrt_ratio_no_panic_witness :
  exists v, calculate_next_sqrt_ratio (2 ^ 128) (10 ^ 24) (10 ^ 18 * 2 ^ 32)
              (2 * 10 ^ 18 * 2 ^ 32) 1 0 = Returns v.
Proof.
  apply calculate_next_sqrt_ratio_no_panic; try lia.
  right. unfold MAX_SQRT_RATIO, U256. lia.
Defined.

(** C2: on the input of the test [high_liquidity_token1_gt_token0]
    ([sqrt_ratio = 2^128], [liquidity = 10^24],
    [sale_rate_token0 = 10^18 * 2^32], [sale_rate_token1 = 2 * 10^18 * 2^32],
    [time_elapsed = 1], [fee = 0]) the current price is below
    [sqrt_sale_ratio], [c > 0], [round_up] is false and the exponent is in
    the domain of [exp2]; the value [sqrt_sale_ratio * (e - c) / (e + c)]
    obtained by [muldiv] lies strictly below [sqrt_sale_ratio], but the
    code returns [sqrt_sale_ratio] itself. *)
Theorem calculate_next_sqrt_ratio_below_equilibrium :
  let sqrt_ratio := 2 ^ 128 in
  let liquidity := 10 ^ 24 in
  let sale_rate_token0 := 10 ^ 18 * 2 ^ 32 in
  let sale_rate_token1 := 2 * 10 ^ 18 * 2 ^ 32 in
  let sqrt_sale_ratio := 481231938336009023090067544951314448384 in
  let c := 58383224090797344209988732383453899778 in
  let exponent := 75273005160800 in
  let e := Uint.shl 18446796249054638144 64 in
  compute_sqrt_sale_ratio sale_rate_token0 sale_rate_token1 = Returns sqrt_sale_ratio /\
  sqrt_ratio < sqrt_sale_ratio /\
  compute_c sqrt_sale_ratio sqrt_ratio = Returns (c, true) /\
  Z.sqrt (sale_rate_token1 * sale_rate_token0) * 2 ^ 64 / 2 ^ 64 * 1 * 12392656037
    / liquidity = exponent /\
  exp2 exponent = Returns 18446796249054638144 /\
  muldiv sqrt_sale_ratio (e - c) (e + c) false =
    Some 340282707202965090089453576058304747105 /\
  340282707202965090089453576058304747105 < sqrt_sale_ratio /\
  calculate_next_sqrt_ratio sqrt_ratio liquidity sale_rate_token0 sale_rate_token1 1 0 =
    Returns sqrt_sale_ratio.
Proof.
  cbv zeta. repeat split; vm_compute; reflexivity.
Qed.

(** C10: when the inner full-range quote succeeds, [OraclePool::quote]
    succeeds with the inner amounts, fees and direction unchanged, the
    inner state and resources wrapped, [state_after.last_snapshot_time]
    equal to the block timestamp [meta], and [snapshots_written] equal to
    [1] exactly when the snapshot time (from [override_state] when present,
    otherwise the pool's [last_snapshot_time]) differs from [meta], [0]
    otherwise. *)
Theorem oracle_pool_quote_spec {P FS FR E : Type}
    (full_range_pool_quote : P -> QuoteParams FS unit -> Result (Quote FR FS) E)
    (self : OraclePool P) (params : QuoteParams (OraclePoolState FS) Z)
    (result : Quote FR FS) :
  full_range_pool_quote (full_range_pool self)
    {| token_amount := token_amount params;
       sqrt_ratio_limit := sqrt_ratio_limit params;
       override_state := option_map full_range_pool_state (override_state params);
       meta := tt |} = Ok result ->
  let snapshot_time :=
    match override_state params with
    | Some os => OraclePoolState.last_snapshot_time os
    | None => OraclePool.last_snapshot_time self
    end in
  exists q, quote full_range_pool_quote self params = Ok q /\
    calculated_amount q = calculated_amount result /\
    consumed_amount q = consumed_amount result /\
    fees_paid q = fees_paid result /\
    is_price_increasing q = is_price_increasing result /\
    full_range_pool_resources (execution_resources q) = execution_resources result /\
    full_range_pool_state (state_after q) = state_after result /\
    OraclePoolState.last_snapshot_time (state_after q) = meta params /\
    (snapshot_time <> meta params -> snapshots_written (execution_resources q) = 1) /\
    (snapshot_time = meta params -> snapshots_written (execution_resources q) = 0).
Proof.
  intros H snapshot_time. unfold quote. rewrite H.
  eexists. split; [reflexivity|]. cbn.
  repeat split; fold snapshot_time; intros Ht.
  - now replace (snapshot_time =? meta params) with false by lia.
  - now rewrite Ht, Z.eqb_refl.
Qed.

Lemma oracle_pool_quote_spec_witness :
  let self := {| full_range_pool := tt; OraclePool.last_snapshot_time := 10 |} in
  let params := {| token_amount := {| amount := 3; token := 0 |};
                   sqrt_ratio_limit := None; override_state := None; meta := 11 |} in
  exists q, quote example_full_range_quote self params = Ok q /\
    calculated_amount q = 5 /\ consumed_amount q = 3 /\ fees_paid q = 0 /\
    is_price_increasing q = true /\
    full_range_pool_resources (execution_resources q) = 1 /\
    full_range_pool_state (state_after q) = 7 /\
    OraclePoolState.last_snapshot_time (state_after q) = 11 /\
    (10 <> 11 -> snapshots_written (execution_resources q) = 1) /\
    (10 = 11 -> snapshots_written (execution_resources q) = 0).
Proof.
  exact (oracle_pool_quote_spec example_full_range_quote
           {| full_range_pool := tt; OraclePool.last_snapshot_time := 10 |}
           {| token_amount := {| amount := 3; token := 0 |};
              sqrt_ratio_limit := None; override_state := None; meta := 11 |}
           {| calculated_amount := 5; consumed_amount := 3;
              execution_resources := 1; fees_paid := 0; is_price_increasing := true;
              state_after := 7 |} eq_refl).
Defined.

Lemma calculate_next_sqrt_ratio_below_is_sale_ratio_witness :
  calculate_next_sqrt_ratio (2 ^ 128) (10 ^ 24) (10 ^ 18 * 2 ^ 32) (2 * 10 ^ 18 * 2 ^ 32) 1 0 =
    Returns 481231938336009023090067544951314448384 /\
  481231938336009023090067544951314448384 = 481231938336009023090067544951314448384.
Proof.
  assert (H : calculate_next_sqrt_ratio (2 ^ 128) (10 ^ 24) (10 ^ 18 * 2 ^ 32)
                (2 * 10 ^ 18 * 2 ^ 32) 1 0 = Returns 481231938336009023090067544951314448384)
    by (vm_compute; reflexivity).
  split; [exact H|].
  apply (calculate_next_sqrt_ratio_below_is_sale_ratio (2 ^ 128) (10 ^ 24) (10 ^ 18 * 2 ^ 32)
           (2 * 10 ^ 18 * 2 ^ 32) 1 0); [lia | vm_compute; reflexivity | lia | exact H].
Defined.

(** ** Further properties of the code *)

(** For a positive tick the sqrt ratio is [U256::MAX] divided by the
    sqrt ratio of the opposite tick. *)
Lemma to_sqrt_ratio_reciprocal t r :
  0 < t <= MAX_TICK ->
  to_sqrt_ratio (- t) = Returns (Some r) ->
  to_sqrt_ratio t = Returns (Some (Uint.MAX / r)).
Proof.
  intros Ht H.
  rewrite to_sqrt_ratio_spec in H by (unfold MIN_TICK, MAX_TICK in *; lia).
  rewrite to_sqrt_ratio_spec by (unfold MIN_TICK, MAX_TICK in *; lia).
  replace (0 <? - t) with false in H by lia. replace (0 <? t) with true by lia.
  rewrite Z.abs_opp in H. apply Returns_inj, (f_equal (fun o => match o with Some x => x | None => 0 end)) in H.
  cbv beta iota in H. subst r. reflexivity.
Qed.

Lemma to_sqrt_ratio_some_range t r :
  to_sqrt_ratio t = Returns (Some r) -> MIN_TICK <= t <= MAX_TICK.
Proof.
  unfold to_sqrt_ratio. intros H.
  destruct (Z.ltb_spec t MIN_TICK), (Z.ltb_spec MAX_TICK t); try lia;
    cbn [orb] in H; apply Returns_inj in H; discriminate.
Qed.

Lemma tick_loop_MAX_TICK : tick_loop_pure 27 MAX_TICK = MIN_SQRT_RATIO.
Proof. vm_compute. reflexivity. Qed.

Lemma tick_loop_MAX_TICK_recip : Uint.MAX / tick_loop_pure 27 MAX_TICK = MAX_SQRT_RATIO.
Proof. vm_compute. reflexivity. Qed.

Lemma tick_loop_ge_min n : 0 <= n <= MAX_TICK -> MIN_SQRT_RATIO <= tick_loop_pure 27 n.
Proof.
  intros Hn. rewrite <- tick_loop_MAX_TICK.
  destruct (Z.eq_dec n MAX_TICK) as [->|]; [lia|].
  pose proof (tick_loop_strict n MAX_TICK ltac:(lia) ltac:(lia)). lia.
Qed.

(** Every sqrt ratio [to_sqrt_ratio] returns lies in
    [[MIN_SQRT_RATIO, MAX_SQRT_RATIO]]. *)
Lemma to_sqrt_ratio_in_range t r :
  to_sqrt_ratio t = Returns (Some r) -> MIN_SQRT_RATIO <= r <= MAX_SQRT_RATIO.
Proof.
  intros H. pose proof (to_sqrt_ratio_some_range t r H) as Ht.
  rewrite to_sqrt_ratio_spec in H by exact Ht.
  assert (Ha : 0 <= Z.abs t <= MAX_TICK) by (unfold MIN_TICK, MAX_TICK in *; lia).
  pose proof (tick_loop_ge_min _ Ha) as Hmin.
  pose proof (tick_loop_le (Z.abs t)) as Hle.
  set (L := tick_loop_pure 27 (Z.abs t)) in *. clearbody L.
  apply Returns_inj, (f_equal (fun o => match o with Some x => x | None => 0 end)) in H.
  cbv beta iota in H. subst r.
  assert (Hm : MIN_SQRT_RATIO = 447090492618910 + 2 ^ 64) by reflexivity.
  assert (Hp : 0 < MIN_SQRT_RATIO) by (rewrite Hm; lia).
  assert (HM : MAX_SQRT_RATIO = Uint.MAX / MIN_SQRT_RATIO) by
    (rewrite <- tick_loop_MAX_TICK; symmetry; exact tick_loop_MAX_TICK_recip).
  destruct (Z.ltb_spec 0 t).
  - split.
    + apply (Z.le_trans _ (Uint.MAX / 2 ^ 128)).
      * rewrite Hm. unfold Uint.MAX. vm_compute. discriminate.
      * apply Z.div_le_compat_l; unfold Uint.MAX; lia.
    + rewrite HM. apply Z.div_le_compat_l; unfold Uint.MAX; lia.
  - split; [exact Hmin|].
    apply (Z.le_trans _ (2 ^ 128)); [exact Hle|]. rewrite HM, Hm.
    vm_compute. discriminate.
Qed.

(** The sqrt ratio is below [2^128] (price 1 in Q128.128) exactly for
    negative ticks, [2^128] at tick 0 and above it for positive ticks. *)
Lemma to_sqrt_ratio_vs_one t r :
  to_sqrt_ratio t = Returns (Some r) ->
  (t < 0 -> r < 2 ^ 128) /\ (t = 0 -> r = 2 ^ 128) /\ (0 < t -> 2 ^ 128 < r).
Proof.
  intros H. pose proof (to_sqrt_ratio_some_range t r H) as Ht.
  rewrite to_sqrt_ratio_spec in H by exact Ht.
  apply Returns_inj, (f_equal (fun o => match o with Some x => x | None => 0 end)) in H.
  cbv beta iota in H. subst r.
  assert (HZ : tick_loop_pure 27 0 = 2 ^ 128) by reflexivity.
  split; [|split]; intros Hs.
  - replace (0 <? t) with false by lia.
    rewrite <- HZ. apply tick_loop_strict; unfold MIN_TICK, MAX_TICK in *; lia.
  - subst t. exact HZ.
  - replace (0 <? t) with true by lia. rewrite Z.abs_eq by lia.
    pose proof (tick_loop_strict 0 t ltac:(lia) ltac:(lia)) as S.
    pose proof (tick_loop_pos t ltac:(lia)) as P.
    apply (Z.lt_le_trans _ (Uint.MAX / (2 ^ 128 - 1))).
    + vm_compute. reflexivity.
    + apply Z.div_le_compat_l; unfold Uint.MAX; lia.
Qed.

(** [exp2] is exact at the integers: [exp2(n << 64) = 2^(64 + n)] for
    [-64 <= n < 64]. *)
Lemma exp2_integer n :
  -64 <= n < 64 -> exp2 (n * 2 ^ 64) = Returns (2 ^ (64 + n)).
Proof.
  intros Hn. rewrite exp2_spec.
  replace (n * 2 ^ 64 <? 2 ^ 70) with true by lia.
  replace (n * 2 ^ 64 <? - 2 ^ 70) with false by lia.
  rewrite exp2_frac, Z.mod_mul, Z.div_mul by lia.
  change (exp2_loop_pure 64 0 (2 ^ 127)) with (2 ^ 127).
  replace (2 ^ 127) with (2 ^ (64 + n) * 2 ^ (63 - n)) at 1
    by (rewrite <- Z.pow_add_r by lia; f_equal; lia).
  rewrite Z.div_mul; [reflexivity|].
  assert (0 < 2 ^ (63 - n)) by (apply Z.pow_pos_nonneg; lia). lia.
Qed.

(** Adding [1.0] (that is [2^64]) to the exponent doubles [exp2]'s result,
    up to the rounding of the final shift. *)
Lemma exp2_add_one x e :
  - 2 ^ 70 <= x -> x + 2 ^ 64 < 2 ^ 70 -> exp2 x = Returns e ->
  exp2 (x + 2 ^ 64) = Returns (2 * e) \/ exp2 (x + 2 ^ 64) = Returns (2 * e + 1).
Proof.
  intros H1 H2 He. rewrite exp2_spec in He |- *.
  replace (x <? 2 ^ 70) with true in He by lia.
  replace (x <? - 2 ^ 70) with false in He by lia.
  replace (x + 2 ^ 64 <? 2 ^ 70) with true by lia.
  replace (x + 2 ^ 64 <? - 2 ^ 70) with false by lia.
  apply Returns_inj in He.
  assert (Hm : (x + 2 ^ 64) mod 2 ^ 64 = x mod 2 ^ 64)
    by (replace (x + 2 ^ 64) with (x + 1 * 2 ^ 64) by lia; apply Z.mod_add; lia).
  assert (Hd : (x + 2 ^ 64) / 2 ^ 64 = x / 2 ^ 64 + 1)
    by (replace (x + 2 ^ 64) with (x + 1 * 2 ^ 64) by lia; apply Z.div_add; lia).
  rewrite (exp2_frac (x + 2 ^ 64)), Hm, <- exp2_frac, Hd.
  set (q := x / 2 ^ 64) in *.
  assert (Hq : q <= 62).
  { assert (x < 63 * 2 ^ 64) by lia.
    assert (x / 2 ^ 64 < 63) by (apply Z.div_lt_upper_bound; lia). lia. }
  set (R := exp2_loop_pure 64 x (2 ^ 127)) in *.
  replace (63 - (q + 1)) with (62 - q) by lia.
  replace (63 - q) with (62 - q + 1) in He by lia.
  rewrite Z.pow_add_r, <- Z.div_div in He by (try apply Z.pow_pos_nonneg; lia).
  assert (H2p : 0 < 2 ^ (62 - q)) by (apply Z.pow_pos_nonneg; lia).
  set (Y := R / 2 ^ (62 - q)) in *.
  pose proof (Z.div_mod Y 2 ltac:(lia)) as D.
  pose proof (Z.mod_pos_bound Y 2 ltac:(lia)) as B.
  change (2 ^ 1) with 2 in He. rewrite He in D.
  destruct (Z.eq_dec (Y mod 2) 0) as [E|E]; [left|right]; f_equal; lia.
Qed.

(** [exp2] returns [0] exactly on underflow ([x < -2^70]); elsewhere on its
    domain its result is positive. *)
Lemma exp2_zero_iff x : exp2 x = Returns 0 <-> x < - 2 ^ 70.
Proof.
  rewrite exp2_spec. split.
  - destruct (Z.ltb_spec x (2 ^ 70)); [|discriminate].
    destruct (Z.ltb_spec x (- 2 ^ 70)); [lia|].
    intros HR. apply Returns_inj in HR.
    pose proof (exp2_acc_bounds x) as [HA _].
    assert (Hq : -64 <= x / 2 ^ 64) by (apply Z.div_le_lower_bound; lia).
    assert (x / 2 ^ 64 < 64) by (apply Z.div_lt_upper_bound; lia).
    assert (Hp : 0 < 2 ^ (63 - x / 2 ^ 64)) by (apply Z.pow_pos_nonneg; lia).
    assert (2 ^ (63 - x / 2 ^ 64) <= 2 ^ 127) by (apply Z.pow_le_mono_r; lia).
    assert (1 <= exp2_loop_pure 64 x (2 ^ 127) / 2 ^ (63 - x / 2 ^ 64))
      by (apply Z.div_le_lower_bound; lia). lia.
  - intros HR. replace (x <? 2 ^ 70) with true by lia.
    replace (x <? - 2 ^ 70) with true by lia. reflexivity.
Qed.

(** [compute_sqrt_sale_ratio] panics exactly when [sale_rate_token0] is 0. *)
Lemma compute_sqrt_sale_ratio_panics_iff sr0 sr1 :
  compute_sqrt_sale_ratio sr0 sr1 = Panics <-> sr0 = 0.
Proof.
  unfold compute_sqrt_sale_ratio, Uint.div.
  destruct (Z.eqb_spec sr0 0); cbn [rbind]; [tauto|].
  split; [|lia]. destruct (_ <=? _); [discriminate|]. destruct (_ <=? _); discriminate.
Qed.

Lemma shl_exact a n : 0 <= a -> 0 <= n -> a * 2 ^ n < 2 ^ 256 -> Uint.shl a n = a * 2 ^ n.
Proof.
  intros Ha Hn H. unfold Uint.shl. rewrite Z.shiftl_mul_pow2 by lia.
  apply Z.mod_small. assert (0 < 2 ^ n) by (apply Z.pow_pos_nonneg; lia). nia.
Qed.

(** [compute_sqrt_sale_ratio] in closed form when no shift wraps: the
    ratio [(sale_rate_token1 << 128) / sale_rate_token0] below [2^240]. *)
Lemma compute_sqrt_sale_ratio_closed sr0 sr1 :
  0 < sr0 -> 0 <= sr1 < 2 ^ 128 -> sr1 * 2 ^ 128 / sr0 < 2 ^ 240 ->
  compute_sqrt_sale_ratio sr0 sr1 =
    let r := sr1 * 2 ^ 128 / sr0 in
    Returns (if 2 ^ 192 <=? r then Z.sqrt (r * 2 ^ 16) * 2 ^ 56
             else if 2 ^ 128 <=? r then Z.sqrt (r * 2 ^ 64) * 2 ^ 32
             else Z.sqrt (r * 2 ^ 128)).
Proof.
  intros H0 H1 Hr. cbv zeta. unfold compute_sqrt_sale_ratio.
  rewrite (shl_exact sr1 128) by lia. rewrite div_ok by lia. cbn [rbind].
  set (r := sr1 * 2 ^ 128 / sr0) in *.
  assert (Hr0 : 0 <= r) by (apply Z.div_pos; lia).
  assert (HU3 : U256 [0; 0; 0; 1] = 2 ^ 192) by reflexivity.
  assert (HU2 : U256 [0; 0; 1; 0] = 2 ^ 128) by reflexivity.
  rewrite HU3, HU2. unfold Uint.integer_sqrt.
  destruct (Z.leb_spec (2 ^ 192) r); [|destruct (Z.leb_spec (2 ^ 128) r)]; f_equal.
  - rewrite (shl_exact r 16) by lia.
    assert (Z.sqrt (r * 2 ^ 16) < 2 ^ 128)
      by (apply sqrt_lt_pow; [change (2 * 128) with 256; split|]; lia).
    apply shl_exact; [apply Z.sqrt_nonneg | lia | lia].
  - rewrite (shl_exact r 64) by lia.
    assert (Z.sqrt (r * 2 ^ 64) < 2 ^ 128)
      by (apply sqrt_lt_pow; [change (2 * 128) with 256; split|]; lia).
    apply shl_exact; [apply Z.sqrt_nonneg | lia | lia].
  - rewrite (shl_exact r 128) by lia. reflexivity.
Qed.

Lemma sqrt_scaled a k :
  0 <= a -> 0 <= k ->
  Z.sqrt a * 2 ^ k * (Z.sqrt a * 2 ^ k) <= a * 2 ^ (2 * k) <
  (Z.sqrt a * 2 ^ k + 2 ^ k) * (Z.sqrt a * 2 ^ k + 2 ^ k).
Proof.
  intros Ha Hk. pose proof (Z.sqrt_spec a Ha) as [H1 H2].
  assert (HP : 0 < 2 ^ k) by (apply Z.pow_pos_nonneg; lia).
  replace (2 ^ (2 * k)) with (2 ^ k * 2 ^ k) by (rewrite <- Z.pow_add_r by lia; f_equal; lia).
  set (P := 2 ^ k) in *. set (S := Z.sqrt a) in *.
  assert (HPP : 0 < P * P) by nia.
  split.
  - replace (S * P * (S * P)) with (S * S * (P * P)) by ring.
    replace (a * (P * P)) with (a * (P * P)) by ring.
    apply Z.mul_le_mono_nonneg_r; lia.
  - replace ((S * P + P) * (S * P + P)) with (Z.succ S * Z.succ S * (P * P)) by (unfold Z.succ; ring).
    apply Z.mul_lt_mono_pos_r; lia.
Qed.

(** The square root sale ratio is the square root of the sale ratio in
    Q128.128 rounded down, to within [2^56]: [s^2 <= ratio * 2^128 <
    (s + 2^56)^2] whenever the ratio [(sale_rate_token1 << 128) /
    sale_rate_token0] is below [2^240]. *)
Lemma compute_sqrt_sale_ratio_accuracy sr0 sr1 :
  0 < sr0 -> 0 <= sr1 < 2 ^ 128 -> sr1 * 2 ^ 128 / sr0 < 2 ^ 240 ->
  exists s, compute_sqrt_sale_ratio sr0 sr1 = Returns s /\
    s * s <= sr1 * 2 ^ 128 / sr0 * 2 ^ 128 < (s + 2 ^ 56) * (s + 2 ^ 56).
Proof.
  intros H0 H1 Hr. rewrite compute_sqrt_sale_ratio_closed by assumption.
  cbv zeta. eexists. split; [reflexivity|].
  set (r := sr1 * 2 ^ 128 / sr0) in *.
  assert (Hr0 : 0 <= r) by (apply Z.div_pos; lia).
  destruct (Z.leb_spec (2 ^ 192) r); [|destruct (Z.leb_spec (2 ^ 128) r)].
  - pose proof (sqrt_scaled (r * 2 ^ 16) 56 ltac:(lia) ltac:(lia)) as HS.
    replace (r * 2 ^ 16 * 2 ^ (2 * 56)) with (r * 2 ^ 128) in HS
      by (rewrite <- Z.mul_assoc, <- Z.pow_add_r by lia; reflexivity).
    exact HS.
  - pose proof (sqrt_scaled (r * 2 ^ 64) 32 ltac:(lia) ltac:(lia)) as HS.
    replace (r * 2 ^ 64 * 2 ^ (2 * 32)) with (r * 2 ^ 128) in HS
      by (rewrite <- Z.mul_assoc, <- Z.pow_add_r by lia; reflexivity).
    set (s := Z.sqrt (r * 2 ^ 64) * 2 ^ 32) in *.
    assert (0 <= s) by (subst s; pose proof (Z.sqrt_nonneg (r * 2 ^ 64)); lia).
    split; [lia|]. apply (Z.lt_le_trans _ _ _ (proj2 HS)).
    apply Z.mul_le_mono_nonneg; lia.
  - pose proof (sqrt_scaled (r * 2 ^ 128) 0 ltac:(lia) ltac:(lia)) as HS.
    rewrite Z.mul_0_r, Z.pow_0_r, !Z.mul_1_r in HS.
    set (s := Z.sqrt (r * 2 ^ 128)) in *.
    assert (0 <= s) by apply Z.sqrt_nonneg.
    split; [lia|]. apply (Z.lt_le_trans _ _ _ (proj2 HS)).
    apply Z.mul_le_mono_nonneg; lia.
Qed.

Lemma sqrt_pow2 k : 0 <= k -> Z.sqrt (2 ^ (2 * k)) = 2 ^ k.
Proof.
  intros Hk. replace (2 ^ (2 * k)) with (2 ^ k * 2 ^ k)
    by (rewrite <- Z.pow_add_r by lia; f_equal; lia).
  apply Z.sqrt_square. apply Z.pow_nonneg. lia.
Qed.

(** With [sale_rate_token0] fixed, the square root sale ratio does not
    decrease as [sale_rate_token1] grows, across the three precision bands,
    as long as the ratio stays below [2^240]. *)
Lemma compute_sqrt_sale_ratio_mono sr0 a b :
  0 < sr0 -> 0 <= a <= b -> b < 2 ^ 128 -> b * 2 ^ 128 / sr0 < 2 ^ 240 ->
  exists sa sb, compute_sqrt_sale_ratio sr0 a = Returns sa /\
    compute_sqrt_sale_ratio sr0 b = Returns sb /\ sa <= sb.
Proof.
  intros H0 Hab Hb Hr.
  assert (Hle : a * 2 ^ 128 / sr0 <= b * 2 ^ 128 / sr0)
    by (apply Z.div_le_mono; lia).
  rewrite !compute_sqrt_sale_ratio_closed by lia. cbv zeta.
  do 2 eexists. split; [reflexivity|]. split; [reflexivity|].
  set (ra := a * 2 ^ 128 / sr0) in *. set (rb := b * 2 ^ 128 / sr0) in *.
  assert (Ha0 : 0 <= ra) by (apply Z.div_pos; lia).
  assert (M16 : Z.sqrt (ra * 2 ^ 16) <= Z.sqrt (rb * 2 ^ 16))
    by (apply Z.sqrt_le_mono; lia).
  assert (M64 : Z.sqrt (ra * 2 ^ 64) <= Z.sqrt (rb * 2 ^ 64))
    by (apply Z.sqrt_le_mono; lia).
  assert (M128 : Z.sqrt (ra * 2 ^ 128) <= Z.sqrt (rb * 2 ^ 128))
    by (apply Z.sqrt_le_mono; lia).
  assert (P56 : 0 < 2 ^ 56) by lia. assert (P32 : 0 < 2 ^ 32) by lia.
  pose proof (Z.sqrt_nonneg (ra * 2 ^ 16)). pose proof (Z.sqrt_nonneg (ra * 2 ^ 64)).
  pose proof (Z.sqrt_nonneg (ra * 2 ^ 128)).
  assert (L128 : ra < 2 ^ 128 -> Z.sqrt (ra * 2 ^ 128) < 2 ^ 128)
    by (intros; apply sqrt_lt_pow; [change (2 * 128) with 256; split|]; lia).
  assert (L64 : ra < 2 ^ 192 -> Z.sqrt (ra * 2 ^ 64) < 2 ^ 128)
    by (intros; apply sqrt_lt_pow; [change (2 * 128) with 256; split|]; lia).
  assert (G104 : 2 ^ 192 <= rb -> 2 ^ 104 <= Z.sqrt (rb * 2 ^ 16)).
  { intros. rewrite <- (sqrt_pow2 104) by lia. apply Z.sqrt_le_mono. lia. }
  assert (G96 : 2 ^ 128 <= rb -> 2 ^ 96 <= Z.sqrt (rb * 2 ^ 64)).
  { intros. rewrite <- (sqrt_pow2 96) by lia. apply Z.sqrt_le_mono. lia. }
  destruct (Z.leb_spec (2 ^ 192) ra), (Z.leb_spec (2 ^ 192) rb); try lia;
    destruct (Z.leb_spec (2 ^ 128) ra), (Z.leb_spec (2 ^ 128) rb); try lia;
    try specialize (G104 ltac:(lia)); try specialize (G96 ltac:(lia));
    try specialize (L64 ltac:(lia)); try specialize (L128 ltac:(lia)); nia.
Qed.

(** At the equilibrium ([sqrt_ratio] equal to a positive square root sale
    ratio) [calculate_next_sqrt_ratio] returns the price unchanged, whatever
    the liquidity, elapsed time and fee. *)
Lemma calculate_next_sqrt_ratio_at_equilibrium sr0 sr1 liquidity time_elapsed fee s :
  0 < sr0 -> compute_sqrt_sale_ratio sr0 sr1 = Returns s -> 0 < s ->
  calculate_next_sqrt_ratio s liquidity sr0 sr1 time_elapsed fee = Returns s.
Proof.
  intros H0 Hs Hp.
  destruct (compute_sqrt_sale_ratio_bounds sr0 sr1 H0) as [s' [Hs' Hb]].
  rewrite Hs in Hs'. apply Returns_inj in Hs' as <-.
  unfold calculate_next_sqrt_ratio. rewrite Hs. cbn [rbind].
  destruct (liquidity =? 0); [reflexivity|].
  rewrite (proj1 (compute_c_spec s s ltac:(lia) ltac:(lia) ltac:(unfold Uint.MAX; lia))).
  cbn [rbind]. rewrite Z.sub_diag, Z.abs_0, Z.mul_0_l, Z.div_0_l by lia.
  reflexivity.
Qed.

(** [compute_c sqrt_ratio sqrt_sale_ratio] panics exactly when the two
    prices sum to [0] (a [muldiv] by zero) or overflow 256 bits; otherwise
    it returns [|sqrt_sale_ratio - sqrt_ratio| * 2^128 / (sqrt_sale_ratio +
    sqrt_ratio)], at most [2^128], flagged when [sqrt_sale_ratio <
    sqrt_ratio]. *)
Lemma compute_c_result a b :
  0 <= a -> 0 <= b ->
  (compute_c a b = Panics <-> a + b = 0 \/ Uint.MAX < a + b) /\
  (0 < a + b <= Uint.MAX ->
   compute_c a b = Returns (Z.abs (b - a) * 2 ^ 128 / (a + b), b <? a) /\
   Z.abs (b - a) * 2 ^ 128 / (a + b) <= 2 ^ 128).
Proof.
  intros Ha Hb.
  assert (Ok : 0 < a + b <= Uint.MAX ->
   compute_c a b = Returns (Z.abs (b - a) * 2 ^ 128 / (a + b), b <? a) /\
   Z.abs (b - a) * 2 ^ 128 / (a + b) <= 2 ^ 128).
  { intros H. pose proof (compute_c_spec a b Ha Hb H) as [E B]. split; [exact E | lia]. }
  split; [|exact Ok]. split.
  - intros HP. destruct (Z.eq_dec (a + b) 0) as [|Hn]; [now left|].
    destruct (Z.leb_spec (a + b) Uint.MAX) as [Hl|Hl]; [|now right].
    destruct (Ok ltac:(lia)) as [E _]. congruence.
  - intros [Hz|Hm].
    + assert (a = 0) as -> by lia. assert (b = 0) as -> by lia. reflexivity.
    + unfold compute_c. unfold Uint.add.
      replace (b + a <=? Uint.MAX) with false by lia.
      destruct (Z.leb_spec a b); rewrite sub_ok by lia; reflexivity.
Qed.

(** The oracle pool's quote fails exactly when the full-range pool's quote
    fails, with the same error. *)
Lemma oracle_pool_quote_err_iff {P FS FR E : Type}
    (full_range_pool_quote : P -> QuoteParams FS unit -> Result (Quote FR FS) E)
    (self : OraclePool P) (params : QuoteParams (OraclePoolState FS) Z) (e : E) :
  quote full_range_pool_quote self params = Err e <->
  full_range_pool_quote (full_range_pool self)
    {| token_amount := token_amount params;
       sqrt_ratio_limit := sqrt_ratio_limit params;
       override_state := option_map full_range_pool_state (override_state params);
       meta := tt |} = Err e.
Proof.
  unfold quote. destruct (full_range_pool_quote _ _); split; congruence.
Qed.

(** Quoting again in the same block from the state a quote left behind
    ([override_state = Some state_after]) writes no snapshot. *)
Lemma oracle_pool_quote_chain_no_snapshot {P FS FR E : Type}
    (full_range_pool_quote : P -> QuoteParams FS unit -> Result (Quote FR FS) E)
    (self self' : OraclePool P) (p1 p2 : QuoteParams (OraclePoolState FS) Z) q1 q2 :
  quote full_range_pool_quote self p1 = Ok q1 ->
  override_state p2 = Some (state_after q1) -> meta p2 = meta p1 ->
  quote full_range_pool_quote self' p2 = Ok q2 ->
  snapshots_written (execution_resources q2) = 0 /\
  OraclePoolState.last_snapshot_time (state_after q2) = meta p1.
Proof.
  unfold quote. intros H1 Ho Hm H2.
  destruct (full_range_pool_quote (full_range_pool self) _); [|discriminate].
  injection H1 as <-. rewrite Ho, Hm in H2.
  destruct (full_range_pool_quote (full_range_pool self') _); [|discriminate].
  injection H2 as <-. cbn. now rewrite Z.eqb_refl.
Qed.

(** Overriding the state with the pool's own [get_state] writes the same
    snapshot count and stores the same snapshot time as not overriding. *)
Lemma oracle_pool_quote_override_get_state {P FS FR E : Type}
    (full_range_pool_quote : P -> QuoteParams FS unit -> Result (Quote FR FS) E)
    (full_range_pool_get_state : P -> FS)
    (self : OraclePool P) (ta : TokenAmount) (limit : option Z) (block_time : Z) q q' :
  quote full_range_pool_quote self
    {| token_amount := ta; sqrt_ratio_limit := limit; override_state := None;
       meta := block_time |} = Ok q ->
  quote full_range_pool_quote self
    {| token_amount := ta; sqrt_ratio_limit := limit;
       override_state := Some (get_state full_range_pool_get_state self);
       meta := block_time |} = Ok q' ->
  snapshots_written (execution_resources q') = snapshots_written (execution_resources q) /\
  OraclePoolState.last_snapshot_time (state_after q') =
    OraclePoolState.last_snapshot_time (state_after q).
Proof.
  unfold quote. cbn [override_state meta].
  destruct (full_range_pool_quote _ _); [|discriminate]. intros H1.
  destruct (full_range_pool_quote _ _); [|discriminate]. intros H2.
  injection H1 as <-. injection H2 as <-. cbn. split; reflexivity.
Qed.

(** Subtracting what was added gives back the original resources, when the
    full-range resources' own [-=] undoes their [+=]. *)
Lemma resources_sub_add {FR : Type} (fr_add fr_sub : FR -> FR -> Rust FR)
    (Hfr : forall x y z, fr_add x y = Returns z -> fr_sub z y = Returns x)
    (x y z : OraclePoolResources FR) :
  0 <= snapshots_written x ->
  resources_add fr_add x y = Returns z -> resources_sub fr_sub z y = Returns x.
Proof.
  intros Hx. unfold resources_add, resources_sub, u32_add, u32_sub.
  destruct (fr_add _ _) as [f|] eqn:Ef; [|discriminate]. cbn [rbind].
  destruct (Z.ltb_spec (snapshots_written x + snapshots_written y) (2 ^ 32));
    [|discriminate]. cbn [rbind]. intros HR. apply Returns_inj in HR as <-. cbn.
  rewrite (Hfr _ _ _ Ef). cbn [rbind].
  replace (snapshots_written y <=? snapshots_written x + snapshots_written y)
    with true by lia. cbn [rbind].
  replace (snapshots_written x + snapshots_written y - snapshots_written y)
    with (snapshots_written x) by lia.
  now destruct x.
Qed.

Lemma muldiv_up_le a b d s :
  0 <= a * b -> 0 < d -> a * b <= s * d -> s <= Uint.MAX ->
  exists q, muldiv a b d true = Some q /\ 0 <= q <= s.
Proof.
  intros Hm Hd Hle Hs. unfold muldiv. replace (d =? 0) with false by lia.
  cbn [andb]. set (m := a * b) in *.
  pose proof (Z.div_mod m d ltac:(lia)) as Dm.
  pose proof (Z.mod_pos_bound m d Hd) as Bm.
  assert (Q0 : 0 <= m / d) by (apply Z.div_pos; lia).
  destruct (Z.eqb_spec (m mod d) 0) as [E|E]; cbn [negb].
  - assert (m / d <= s) by (apply Z.div_le_upper_bound; lia).
    replace (m / d <=? Uint.MAX) with true by lia. eexists; split; [reflexivity | lia].
  - assert (m / d < s) by nia.
    replace (m / d + 1 <=? Uint.MAX) with true by lia. eexists; split; [reflexivity | lia].
Qed.

Lemma exp2_zero : exp2 0 = Returns (2 ^ 64).
Proof. vm_compute. reflexivity. Qed.

(** With no elapsed time and the current price above the square root sale
    ratio, [calculate_next_sqrt_ratio] returns a price between the square
    root sale ratio and the current price: the price never moves past its
    current value. *)
Lemma calculate_next_sqrt_ratio_no_time_above sqrt_ratio liquidity sr0 sr1 fee ssr :
  0 < sr0 < 2 ^ 128 -> 0 <= sr1 < 2 ^ 128 -> 0 <= fee < 2 ^ 64 ->
  sqrt_ratio <= MAX_SQRT_RATIO ->
  compute_sqrt_sale_ratio sr0 sr1 = Returns ssr -> ssr < sqrt_ratio ->
  exists v, calculate_next_sqrt_ratio sqrt_ratio liquidity sr0 sr1 0 fee = Returns v /\
    ssr <= v <= sqrt_ratio.
Proof.
  intros H0 H1 HF HR Hs Hlt.
  destruct (compute_sqrt_sale_ratio_bounds sr0 sr1 ltac:(lia)) as [s' [Hs' Hb]].
  rewrite Hs in Hs'. apply Returns_inj in Hs' as <-.
  unfold calculate_next_sqrt_ratio. rewrite Hs. cbn [rbind].
  destruct (Z.eqb_spec liquidity 0) as [|HL0]; [exists ssr; split; [reflexivity | lia]|].
  assert (HM : MAX_SQRT_RATIO < 2 ^ 192) by reflexivity.
  destruct (compute_c_spec ssr sqrt_ratio) as [Hc Hcb]; try (unfold Uint.MAX; lia).
  rewrite Hc. cbn [rbind].
  rewrite Z.abs_eq by lia.
  set (c := (sqrt_ratio - ssr) * 2 ^ 128 / (ssr + sqrt_ratio)) in *.
  replace (liquidity =? 0) with false by lia. rewrite orb_false_r.
  destruct (Z.eqb_spec c 0) as [|Hc0]; [exists ssr; split; [reflexivity | lia]|].
  unfold TWO_POW_64. change (U256 [0; 1; 0; 0]) with (2 ^ 64).
  change (U256 [12392656037; 0; 0; 0]) with 12392656037.
  rewrite mul_ok by (unfold Uint.MAX; nia). cbn [rbind].
  rewrite sub_ok by lia. cbn [rbind].
  assert (Hq : 0 <= Uint.integer_sqrt (sr1 * sr0) < 2 ^ 128).
  { unfold Uint.integer_sqrt. split; [apply Z.sqrt_nonneg|].
    apply sqrt_lt_pow; [change (2 * 128) with 256; nia | lia]. }
  rewrite mul_ok by (unfold Uint.MAX; nia). cbn [rbind].
  rewrite div_ok by lia. cbn [rbind].
  rewrite mul_ok by (unfold Uint.MAX; lia). rewrite Z.mul_0_r. cbn [rbind].
  rewrite mul_ok by (unfold Uint.MAX; lia). rewrite Z.mul_0_l. cbn [rbind].
  rewrite div_ok, Z.div_0_l by lia. cbn [rbind].
  change (0x400000000000000000 <=? 0) with false. cbv iota.
  change (Uint.low_u128 0) with 0. rewrite exp2_zero. cbn [rbind].
  change (Uint.shl (2 ^ 64) 64) with (2 ^ 128).
  replace (ssr <? sqrt_ratio) with true by lia.
  assert (Hcs : c * (ssr + sqrt_ratio) <= (sqrt_ratio - ssr) * 2 ^ 128)
    by (unfold c; rewrite (Z.mul_comm (_ / _)); apply Z.mul_div_le; lia).
  assert (Hc0' : 0 <= c) by (unfold c; apply Z.div_pos; lia).
  assert (HcK : c <= 2 ^ 128) by (rewrite Z.abs_eq in Hcb by lia; exact (proj2 Hcb)).
  assert (Hnb : exists x, next_branch ssr (2 ^ 128) c true = Returns x /\ ssr <= Z.max x ssr <= sqrt_ratio).
  { unfold next_branch. rewrite add_ok by (unfold Uint.MAX; lia). cbn [rbind].
    eexists. split; [reflexivity|]. unfold unwrap_or, Uint.abs_diff.
    destruct (Z.eq_dec ssr 0) as [Hz|Hz].
    - (* sqrt_sale_ratio = 0: c = 2^128 and the division is by 0 *)
      assert (Hc2 : c = 2 ^ 128).
      { unfold c. rewrite Hz, Z.sub_0_r, Z.add_0_l, (Z.mul_comm sqrt_ratio).
        apply Z.div_mul. lia. }
      rewrite Hc2, Z.sub_diag. cbn. lia.
    - assert (Hck : c < 2 ^ 128).
      { destruct (Z.ltb_spec c (2 ^ 128)) as [|Hge]; [assumption|].
        assert (2 ^ 128 * (ssr + sqrt_ratio) <= c * (ssr + sqrt_ratio))
          by (apply Z.mul_le_mono_nonneg_r; lia).
        lia. }
      rewrite Z.abs_eq by lia.
      destruct (muldiv_up_le ssr (2 ^ 128 + c) (2 ^ 128 - c) sqrt_ratio)
        as [q [Eq Bq]].
      + apply Z.mul_nonneg_nonneg; lia.
      + lia.
      + lia.
      + unfold Uint.MAX. lia.
      + rewrite Eq. lia. }
  destruct Hnb as [x [Hx Bx]].
  destruct (sqrt_ratio <? ssr); rewrite Hx; cbn [rbind]; eexists; split; try reflexivity; exact Bx.
Qed.

Lemma to_sqrt_ratio_reciprocal_witness :
  to_sqrt_ratio 1 = Returns (Some (Uint.MAX / 340282196779882608775400081051345954875)).
Proof.
  apply (to_sqrt_ratio_reciprocal 1 340282196779882608775400081051345954875).
  - unfold MAX_TICK. lia.
  - vm_compute. reflexivity.
Defined.

Lemma to_sqrt_ratio_in_range_witness :
  MIN_SQRT_RATIO <= 340282537062079388658008856451427006219 <= MAX_SQRT_RATIO.
Proof.
  apply (to_sqrt_ratio_in_range 1). vm_compute. reflexivity.
Defined.

Lemma to_sqrt_ratio_vs_one_witness :
  (1 < 0 -> 340282537062079388658008856451427006219 < 2 ^ 128) /\
  (1 = 0 -> 340282537062079388658008856451427006219 = 2 ^ 128) /\
  (0 < 1 -> 2 ^ 128 < 340282537062079388658008856451427006219).
Proof.
  apply (to_sqrt_ratio_vs_one 1). vm_compute. reflexivity.
Defined.

Lemma exp2_integer_witness : exp2 (3 * 2 ^ 64) = Returns (2 ^ (64 + 3)).
Proof. apply (exp2_integer 3). lia. Defined.

Lemma exp2_add_one_witness :
  exp2 (0 + 2 ^ 64) = Returns (2 * 2 ^ 64) \/ exp2 (0 + 2 ^ 64) = Returns (2 * 2 ^ 64 + 1).
Proof.
  apply (exp2_add_one 0 (2 ^ 64)); [lia | lia | vm_compute; reflexivity].
Defined.

Lemma compute_sqrt_sale_ratio_accuracy_witness :
  exists s, compute_sqrt_sale_ratio 3 7 = Returns s /\
    s * s <= 7 * 2 ^ 128 / 3 * 2 ^ 128 < (s + 2 ^ 56) * (s + 2 ^ 56).
Proof.
  apply (compute_sqrt_sale_ratio_accuracy 3 7); [lia | lia | vm_compute; reflexivity].
Defined.

Lemma compute_sqrt_sale_ratio_mono_witness :
  exists sa sb, compute_sqrt_sale_ratio 3 5 = Returns sa /\
    compute_sqrt_sale_ratio 3 7 = Returns sb /\ sa <= sb.
Proof.
  apply (compute_sqrt_sale_ratio_mono 3 5 7); [lia | lia | lia | vm_compute; reflexivity].
Defined.

Lemma calculate_next_sqrt_ratio_at_equilibrium_witness :
  calculate_next_sqrt_ratio (2 ^ 128) 1000 1 1 3600 100 = Returns (2 ^ 128).
Proof.
  apply (calculate_next_sqrt_ratio_at_equilibrium 1 1 1000 3600 100 (2 ^ 128));
    [lia | vm_compute; reflexivity | lia].
Defined.

Lemma compute_c_result_witness :
  (compute_c 3 5 = Panics <-> 3 + 5 = 0 \/ Uint.MAX < 3 + 5) /\
  (0 < 3 + 5 <= Uint.MAX ->
   compute_c 3 5 = Returns (Z.abs (5 - 3) * 2 ^ 128 / (3 + 5), 5 <? 3) /\
   Z.abs (5 - 3) * 2 ^ 128 / (3 + 5) <= 2 ^ 128).
Proof. apply (compute_c_result 3 5); lia. Defined.

Lemma oracle_pool_quote_chain_no_snapshot_witness :
  let self := {| full_range_pool := tt; OraclePool.last_snapshot_time := 10 |} in
  let p1 : QuoteParams (OraclePoolState Z) Z := {| token_amount := {| amount := 3; token := 0 |};
               sqrt_ratio_limit := None; override_state := None; meta := 11 |} in
  let q1 := {| calculated_amount := 5; consumed_amount := 3;
               execution_resources := {| full_range_pool_resources := 1; snapshots_written := 1 |};
               fees_paid := 0; is_price_increasing := true;
               state_after := {| full_range_pool_state := 7;
                                 OraclePoolState.last_snapshot_time := 11 |} |} in
  let p2 : QuoteParams (OraclePoolState Z) Z := {| token_amount := {| amount := 4; token := 0 |};
               sqrt_ratio_limit := None; override_state := Some (state_after q1); meta := 11 |} in
  let q2 := {| calculated_amount := 5; consumed_amount := 4;
               execution_resources := {| full_range_pool_resources := 1; snapshots_written := 0 |};
               fees_paid := 0; is_price_increasing := true;
               state_after := {| full_range_pool_state := 7;
                                 OraclePoolState.last_snapshot_time := 11 |} |} in
  snapshots_written (execution_resources q2) = 0 /\
  OraclePoolState.last_snapshot_time (state_after q2) = meta p1.
Proof.
  intros self p1 q1 p2 q2.
  apply (oracle_pool_quote_chain_no_snapshot example_full_range_quote self self p1 p2 q1 q2);
    reflexivity.
Defined.

Lemma oracle_pool_quote_override_get_state_witness :
  let self := {| full_range_pool := tt; OraclePool.last_snapshot_time := 10 |} in
  let ta := {| amount := 3; token := 0 |} in
  let q := {| calculated_amount := 5; consumed_amount := 3;
              execution_resources := {| full_range_pool_resources := 1; snapshots_written := 1 |};
              fees_paid := 0; is_price_increasing := true;
              state_after := {| full_range_pool_state := 7;
                                OraclePoolState.last_snapshot_time := 11 |} |} in
  snapshots_written (execution_resources q) = snapshots_written (execution_resources q) /\
  OraclePoolState.last_snapshot_time (state_after q) =
    OraclePoolState.last_snapshot_time (state_after q).
Proof.
  intros self ta q.
  apply (oracle_pool_quote_override_get_state example_full_range_quote (fun _ => 0)
           self ta None 11 q q); reflexivity.
Defined.

Lemma resources_sub_add_witness :
  resources_sub (fun a b => Returns (a - b))
    {| full_range_pool_resources := 5; snapshots_written := 3 |}
    {| full_range_pool_resources := 2; snapshots_written := 1 |} =
  Returns {| full_range_pool_resources := 3; snapshots_written := 2 |}.
Proof.
  apply (resources_sub_add (fun a b => Returns (a + b)) (fun a b => Returns (a - b))).
  - intros a b c H. apply Returns_inj in H as <-. f_equal. lia.
  - cbn. lia.
  - reflexivity.
Defined.

Lemma calculate_next_sqrt_ratio_no_time_above_witness :
  exists v, calculate_next_sqrt_ratio (2 ^ 129) 1000 1 1 0 0 = Returns v /\
    2 ^ 128 <= v <= 2 ^ 129.
Proof.
  apply (calculate_next_sqrt_ratio_no_time_above (2 ^ 129) 1000 1 1 0 (2 ^ 128));
    [lia | lia | lia | vm_compute; discriminate | vm_compute; reflexivity | lia].
Defined.
